(** * Matrix space `via` updater: a shallow embedding of [main.py]

    The script walks the direct children of one Matrix space and, for
    every child room, recomputes the list of `via` servers published in
    the space's [m.space.child] event.  The pure helpers
    ([get_user_homeserver], [most_common_servers],
    [get_highest_level_members]) are embedded as functions; [update_via]
    is embedded as a program in a state-and-exception monad over a model
    of the homeserver the client talks to. *)

From Stdlib Require Import ZArith String Ascii List Permutation Lia.
From stdpp Require Import gmap strings list sorting.

Local Open Scope string_scope.
Local Open Scope list_scope.
Local Open Scope Z_scope.

(** ** Python exceptions and results *)

(** What a nio error response prints as ([str(resp)]). *)
Record ErrorResponse := { err_str : string }.

Inductive exn :=
| IndexError                                  (* [lst[1]], [rooms[0]] *)
| ValueError                                  (* [max] of an empty sequence *)
| KeyError (key : string)                     (* [d[key]] on a missing key *)
| AttributeError (attr : string)              (* [resp.content] on an error response *)
| RaisedResponse (resp : ErrorResponse)       (* [raise members_resp] *)
| ErrorGettingSpace (resp : ErrorResponse)
| ErrorUpdatingState (resp : ErrorResponse).

Inductive result (A : Type) :=
| Ok (a : A)
| Raise (e : exn).
Arguments Ok {A} a.
Arguments Raise {A} e.

Definition rbind {A B} (r : result A) (k : A -> result B) : result B :=
  match r with
  | Ok a => k a
  | Raise e => Raise e
  end.

(** A list comprehension [[f(x) for x in l]] whose body may raise: the
    first failing element aborts the comprehension. *)
Fixpoint comprehension {A B} (f : A -> result B) (l : list A) : result (list B) :=
  match l with
  | [] => Ok []
  | x :: l' => rbind (f x) (fun y => rbind (comprehension f l') (fun ys => Ok (y :: ys)))
  end.

(** ** Python containers used by the script *)

(** [s.split(sep)] for a one-character separator. *)
Fixpoint split (sep : ascii) (s : string) : list string :=
  match s with
  | EmptyString => [EmptyString]
  | String c s' =>
      if Ascii.eqb c sep then EmptyString :: split sep s'
      else match split sep s' with
           | [] => [String c EmptyString]
           | h :: t => String c h :: t
           end
  end.

(** A Python [dict] where iteration order is observable: an association
    list in insertion order, one entry per key. *)
Fixpoint dict_get {V} (k : string) (d : list (string * V)) : option V :=
  match d with
  | [] => None
  | (k', v) :: d' => if String.eqb k' k then Some v else dict_get k d'
  end.

(** [d[k] = v]: an existing key keeps its position, a new key goes last. *)
Fixpoint dict_set {V} (k : string) (v : V) (d : list (string * V)) : list (string * V) :=
  match d with
  | [] => [(k, v)]
  | (k', v') :: d' =>
      if String.eqb k' k then (k', v) :: d' else (k', v') :: dict_set k v d'
  end.

(** [collections.Counter(lst)]: elements are counted in the order they
    are met; [count_step] is [c[x] += 1], a missing key counting as 0. *)
Definition count_step (c : list (string * nat)) (x : string) : list (string * nat) :=
  dict_set x (S (default 0%nat (dict_get x c))) c.

Definition Counter (lst : list string) : list (string * nat) :=
  fold_left count_step lst [].

(** [sorted(items, key=..., reverse=True)]: Python's sort is stable, also
    with [reverse=True], so items with equal keys keep their order. *)
Fixpoint insert_desc {A} (key : A -> nat) (x : A) (l : list A) : list A :=
  match l with
  | [] => [x]
  | y :: l' =>
      if (key x <? key y)%nat then y :: insert_desc key x l' else x :: y :: l'
  end.

Fixpoint sorted_reverse {A} (key : A -> nat) (l : list A) : list A :=
  match l with
  | [] => []
  | x :: l' => insert_desc key x (sorted_reverse key l')
  end.

(** [l[:n]]: a negative stop counts from the end of the list. *)
Definition slice_to {A} (n : Z) (l : list A) : list A :=
  let stop := if n <? 0 then Z.max 0 (Z.of_nat (length l) + n) else n in
  take (Z.to_nat stop) l.

(** [max(values)] raises [ValueError] on an empty sequence. *)
Definition py_max (values : list Z) : result Z :=
  match values with
  | [] => Raise ValueError
  | v :: values' => Ok (fold_left Z.max values' v)
  end.

(** ** The pure helpers of [main.py] *)

Definition get_user_homeserver (user_id : string) : result string :=
  match split ":" user_id !! 1%nat with
  | Some server => Ok server
  | None => Raise IndexError
  end.

Definition most_common_servers (lst : list string) (n : Z) (min_occurrences : Z)
  : list string :=
  let counter := Counter lst in
  let filtered_items :=
    List.filter (fun ic => min_occurrences <=? Z.of_nat (snd ic)) counter in
  let sorted_items := sorted_reverse snd filtered_items in
  let top_n_items := map fst (slice_to n sorted_items) in
  top_n_items.

Definition get_highest_level_members (member_levels : list (string * Z)) (threshold : Z)
  : result (list string) :=
  rbind (py_max (map snd member_levels)) (fun highest_value =>
  if highest_value <=? threshold then Ok []
  else
    let items_with_highest_value :=
      map fst (List.filter (fun kv => snd kv =? highest_value) member_levels) in
    Ok items_with_highest_value).

(** Number of occurrences of a character in a string. *)
Fixpoint count_char (c : ascii) (s : string) : nat :=
  match s with
  | EmptyString => 0%nat
  | String c' s' => ((if Ascii.eqb c' c then 1 else 0) + count_char c s')%nat
  end.

(** ** Data exchanged with the homeserver *)

(** The content of an [m.space.child] event.  [suggested] is optional in
    the event; [room["content"]["suggested"]] raises [KeyError] when it
    is missing. *)
Record Content := { suggested : option bool; via : list string }.

(** An entry of [children_state].  [state_key = None] is Python's
    [None]. *)
Record ChildEvent :=
  { type : string; state_key : option string; content : Content }.

Record SpaceRoom := { children_state : list ChildEvent }.

Record RoomMember := { user_id : string }.

(** The content of an [m.room.power_levels] event, as far as the script
    reads it: both keys are looked up with [dict.get]. *)
Record PowerLevels :=
  { users : option (gmap string Z); users_default : option Z }.

Inductive HierarchyResp :=
| SpaceGetHierarchyResponse (rooms : list SpaceRoom)
| SpaceGetHierarchyError (e : ErrorResponse).

Inductive MembersResp :=
| JoinedMembersResponse (members : list RoomMember)
| JoinedMembersError (e : ErrorResponse).

Inductive StateEventResp :=
| RoomGetStateEventResponse (power_levels : PowerLevels)
| RoomGetStateEventError (e : ErrorResponse).

Inductive PutResp :=
| RoomPutStateResponse
| RoomPutStateError (e : ErrorResponse).

(** ** Configuration: the [main] table of [config.toml] *)

Record Config := {
  cfg_space_id : string;
  cfg_ignore_errors : bool;
  cfg_most_common_servers : Z;
  cfg_min_users_per_server : Z;
  cfg_additional_servers : list string;
  cfg_optimal_via_servers : Z;
  cfg_ignore_requirementrs_to_reach_optimum : bool;
  cfg_shuffle_order : bool;
  cfg_dry_run : bool;
}.

(** ** The homeserver behind the client

    What the four client calls of [update_via] answer.  A successful
    [room_put_state] on a space replaces the content of the matching
    entry of the root room's [children_state]; memberships and power
    levels are separate state and are not touched by it. *)
Record World := {
  hierarchy : string -> HierarchyResp;
  joined : string -> MembersResp;
  room_state : string -> string -> string -> StateEventResp;
  put_refused : string -> string -> option ErrorResponse;
}.

Definition is_event (event_type key : string) (ev : ChildEvent) : bool :=
  String.eqb (type ev) event_type && bool_decide (state_key ev = Some key).

Definition set_child (event_type key : string) (c : Content) (children : list ChildEvent)
  : list ChildEvent :=
  if existsb (is_event event_type key) children then
    map (fun ev =>
           if is_event event_type key ev
           then {| type := type ev; state_key := state_key ev; content := c |}
           else ev) children
  else children ++ [{| type := event_type; state_key := Some key; content := c |}].

Definition put_hierarchy (event_type key : string) (c : Content) (h : HierarchyResp)
  : HierarchyResp :=
  match h with
  | SpaceGetHierarchyResponse (space :: rest) =>
      SpaceGetHierarchyResponse
        ({| children_state := set_child event_type key c (children_state space) |} :: rest)
  | _ => h
  end.

Definition put_world (room_id event_type key : string) (c : Content) (w : World) : World :=
  {| hierarchy := fun sid =>
       if String.eqb sid room_id then put_hierarchy event_type key c (hierarchy w sid)
       else hierarchy w sid;
     joined := joined w;
     room_state := room_state w;
     put_refused := put_refused w |}.

(** ** What the Python process leaves open

    [list(set(xs))] enumerates the set in hash order, and string hashes
    are salted per process; [random.shuffle] permutes in place from the
    generator's state.  Both are fixed by the interpreter, not by the
    script, so the embedding takes them as an interface with the
    properties the language guarantees. *)
Class Runtime := {
  list_of_set : list string -> list string;
  list_of_set_NoDup : forall l, NoDup (list_of_set l);
  list_of_set_elem : forall l x, x ∈ list_of_set l <-> x ∈ l;
  rng : Type;
  shuffle : list string -> rng -> list string * rng;
  shuffle_perm : forall l g, fst (shuffle l g) ≡ₚ l;
}.

(** One possible interpreter: sets keep first occurrences in order, and
    shuffling reverses the list. *)
Definition simple_runtime : Runtime :=
  {| list_of_set := remove_dups;
     list_of_set_NoDup := NoDup_remove_dups;
     list_of_set_elem := fun l x => elem_of_remove_dups l x;
     rng := unit;
     shuffle := fun l g => (reverse l, g);
     shuffle_perm := fun l _ => reverse_Permutation l |}.

(** [set(a) == set(b)] *)
Definition set_equal (a b : list string) : bool :=
  bool_decide (list_to_set a =@{gset string} list_to_set b).

(** ** Observable behaviour: client requests and printed lines *)

Inductive request :=
| ReqHierarchy (space_id : string)
| ReqJoinedMembers (room_id : string)
| ReqGetStateEvent (room_id event_type key : string)
| ReqPutState (room_id event_type : string) (c : Content) (key : string).

Inductive event :=
| Call (r : request) (ok : bool)
| Print (line : string).

(** ** The program monad: interpreter state, homeserver, trace, exceptions *)

Section Program.
Context {R : Runtime}.

Record State := { world : World; random : rng; trace : list event }.

Definition M (A : Type) : Type := State -> result A * State.

Definition ret {A} (a : A) : M A := fun st => (Ok a, st).

Definition raise {A} (e : exn) : M A := fun st => (Raise e, st).

Definition bind {A B} (m : M A) (k : A -> M B) : M B :=
  fun st =>
    match m st with
    | (Ok a, st') => k a st'
    | (Raise e, st') => (Raise e, st')
    end.

Definition lift {A} (r : result A) : M A := fun st => (r, st).

Definition emit (e : event) : M unit :=
  fun st =>
    (Ok tt, {| world := world st; random := random st; trace := trace st ++ [e] |}).

Definition print (line : string) : M unit := emit (Print line).

(** The state after some more events, with the homeserver and the
    generator as they were. *)
Definition log (evs : list event) (st : State) : State :=
  {| world := world st; random := random st; trace := trace st ++ evs |}.

Notation "x <- m ;; k" := (bind m (fun x => k))
  (at level 100, m at next level, right associativity).
Notation "m ;;; k" := (bind m (fun _ => k))
  (at level 100, right associativity).

(** [for x in l: body(x)]; [continue] is the body returning early. *)
Fixpoint for_each {A} (body : A -> M unit) (l : list A) : M unit :=
  match l with
  | [] => ret tt
  | x :: l' => body x ;;; for_each body l'
  end.

(** *** The client calls *)

Definition space_get_hierarchy (space_id : string) : M HierarchyResp :=
  fun st =>
    let resp := hierarchy (world st) space_id in
    let ok := match resp with SpaceGetHierarchyResponse _ => true | _ => false end in
    bind (emit (Call (ReqHierarchy space_id) ok)) (fun _ => ret resp) st.

Definition joined_members (room_id : string) : M MembersResp :=
  fun st =>
    let resp := joined (world st) room_id in
    let ok := match resp with JoinedMembersResponse _ => true | _ => false end in
    bind (emit (Call (ReqJoinedMembers room_id) ok)) (fun _ => ret resp) st.

Definition room_get_state_event (room_id event_type key : string) : M StateEventResp :=
  fun st =>
    let resp := room_state (world st) room_id event_type key in
    let ok := match resp with RoomGetStateEventResponse _ => true | _ => false end in
    bind (emit (Call (ReqGetStateEvent room_id event_type key) ok)) (fun _ => ret resp) st.

Definition room_put_state (room_id event_type : string) (c : Content) (key : string)
  : M PutResp :=
  fun st =>
    match put_refused (world st) room_id key with
    | Some e =>
        (Ok (RoomPutStateError e),
         {| world := world st; random := random st;
            trace := trace st ++ [Call (ReqPutState room_id event_type c key) false] |})
    | None =>
        (Ok RoomPutStateResponse,
         {| world := put_world room_id event_type key c (world st); random := random st;
            trace := trace st ++ [Call (ReqPutState room_id event_type c key) true] |})
    end.

(** [random.shuffle(servers)] *)
Definition random_shuffle (servers : list string) : M (list string) :=
  fun st =>
    let '(servers', g) := shuffle servers (random st) in
    (Ok servers', {| world := world st; random := g; trace := trace st |}).

(** *** The pieces of the loop body *)

(** [levels_response.content]: nio's error response has no such
    attribute. *)
Definition content_of (levels_response : StateEventResp) : result PowerLevels :=
  match levels_response with
  | RoomGetStateEventResponse power_levels => Ok power_levels
  | RoomGetStateEventError _ => Raise (AttributeError "content")
  end.

(** [power_levels.get("users", {}).get(uid, power_levels.get("users_default", 0))] *)
Definition member_level (power_levels : PowerLevels) (uid : string) : Z :=
  default (default 0 (users_default power_levels))
          (default ∅ (users power_levels) !! uid).

(** The dict comprehension of lines 70-75. *)
Definition member_levels_of (members : list RoomMember) (power_levels : PowerLevels)
  : list (string * Z) :=
  fold_left (fun d member => dict_set (user_id member)
                               (member_level power_levels (user_id member)) d)
            members [].

(** Lines 83-103: the allow-list filter, the merge and the relaxed
    re-run. *)
Definition merge_servers (config : Config)
    (all_servers common_servers highest_level_servers : list string) : list string :=
  let valid_additional_servers :=
    List.filter (fun server => bool_decide (server ∈ all_servers))
                (cfg_additional_servers config) in
  let servers :=
    list_of_set (valid_additional_servers ++ common_servers ++ highest_level_servers) in
  if (Z.of_nat (length servers) <? cfg_optimal_via_servers config)
     && cfg_ignore_requirementrs_to_reach_optimum config
  then
    let server_count :=
      Z.max (cfg_most_common_servers config) (cfg_optimal_via_servers config) in
    let common_servers := most_common_servers all_servers server_count 1 in
    list_of_set (common_servers ++ servers)
  else servers.

(** [room["content"]["suggested"]] *)
Definition get_suggested (room : ChildEvent) : result bool :=
  match suggested (content room) with
  | Some b => Ok b
  | None => Raise (KeyError "suggested")
  end.

Definition join (sep : string) (l : list string) : string := String.concat sep l.

(** *** [update_via]: the body of the [for] loop *)

(** Lines 105-132: compare with the published list, then shuffle, write
    and report. *)
Definition apply_update (config : Config) (room : ChildEvent) (room_id : string)
    (servers : list string) : M unit :=
  let space_id := cfg_space_id config in
  if set_equal (via (content room)) servers
  then print ("Skipping room " +:+ room_id +:+ ", 'via' servers already match.")
  else
    servers <- (if cfg_shuffle_order config then random_shuffle servers
                else ret servers) ;;
    sugg <- lift (get_suggested room) ;;
    let content' := {| suggested := Some sugg; via := servers |} in
    (if negb (cfg_dry_run config) then
       resp <- room_put_state space_id "m.space.child" content' room_id ;;
       match resp with
       | RoomPutStateResponse => print ("Updated room " +:+ room_id)
       | RoomPutStateError e =>
           if cfg_ignore_errors config
           then print ("Could not update room " +:+ room_id +:+ ", skipping: "
                       +:+ err_str e)
           else raise (ErrorUpdatingState e)
       end
     else print ("DRY RUN: Would have updated room " +:+ room_id)) ;;;
    print ("Before: " +:+ join ", " (via (content room))) ;;;
    print ("After: " +:+ join ", " servers).

(** Lines 39-103, then [apply_update]. *)
Definition process_room (config : Config) (room : ChildEvent) : M unit :=
  if negb (String.eqb (type room) "m.space.child") then ret tt
  else
  match state_key room with
  | None => ret tt
  | Some "" => ret tt
  | Some room_id =>
    members_resp <- joined_members room_id ;;
    match members_resp with
    | JoinedMembersError e =>
        if cfg_ignore_errors config
        then print ("Skipping room " +:+ room_id +:+ ": " +:+ err_str e)
        else raise (RaisedResponse e)
    | JoinedMembersResponse members =>
      all_servers <-
        lift (comprehension (fun member => get_user_homeserver (user_id member)) members) ;;
      let common_servers :=
        most_common_servers all_servers (cfg_most_common_servers config)
                            (cfg_min_users_per_server config) in
      levels_response <- room_get_state_event room_id "m.room.power_levels" "" ;;
      power_levels <- lift (content_of levels_response) ;;
      let member_levels := member_levels_of members power_levels in
      highest_level_members <- lift (get_highest_level_members member_levels 50) ;;
      highest_level_servers <-
        lift (comprehension get_user_homeserver highest_level_members) ;;
      let servers :=
        merge_servers config all_servers common_servers highest_level_servers in
      apply_update config room room_id servers
    end
  end.

(** The list [servers] that lines 57-103 compute for a room, given the
    two answers of the homeserver: the same statements as in
    [process_room], without the request between them. *)
Definition room_servers (config : Config) (members : list RoomMember)
    (power_levels : PowerLevels) : result (list string) :=
  rbind (comprehension (fun member => get_user_homeserver (user_id member)) members)
    (fun all_servers =>
  let common_servers :=
    most_common_servers all_servers (cfg_most_common_servers config)
                        (cfg_min_users_per_server config) in
  let member_levels := member_levels_of members power_levels in
  rbind (get_highest_level_members member_levels 50) (fun highest_level_members =>
  rbind (comprehension get_user_homeserver highest_level_members)
    (fun highest_level_servers =>
  Ok (merge_servers config all_servers common_servers highest_level_servers)))).

(** The room id of a child entry the loop does not skip. *)
Definition room_key (room : ChildEvent) : option string :=
  if String.eqb (type room) "m.space.child" then
    match state_key room with
    | Some "" => None
    | other => other
    end
  else None.

(** Lines 110-111 as a function of the generator state. *)
Definition shuffled (config : Config) (servers : list string) (g : rng)
  : list string * rng :=
  if cfg_shuffle_order config then shuffle servers g else (servers, g).

(** *** [update_via], lines 23-132 *)

Definition update_via (config : Config) : M unit :=
  let space_id := cfg_space_id config in
  rooms_resp <- space_get_hierarchy space_id ;;
  match rooms_resp with
  | SpaceGetHierarchyError e => raise (ErrorGettingSpace e)
  | SpaceGetHierarchyResponse rooms =>
      match rooms with
      | [] => raise IndexError
      | space :: _ => for_each (process_room config) (children_state space)
      end
  end.

End Program.

(** ** Vocabulary of the statements *)

(** The set of servers that [merge_servers] enumerates, written without
    reference to an enumeration order. *)
Definition merge_set (config : Config)
    (all_servers common_servers highest_level_servers : list string) : gset string :=
  let valid_additional_servers :=
    List.filter (fun server => bool_decide (server ∈ all_servers))
                (cfg_additional_servers config) in
  let prior : gset string :=
    list_to_set (valid_additional_servers ++ common_servers ++ highest_level_servers) in
  if (Z.of_nat (size prior) <? cfg_optimal_via_servers config)
     && cfg_ignore_requirementrs_to_reach_optimum config
  then
    list_to_set
      (most_common_servers all_servers
         (Z.max (cfg_most_common_servers config) (cfg_optimal_via_servers config)) 1)
    ∪ prior
  else prior.

(** A printed line, or a client call that was answered without error. *)
Definition event_ok (e : event) : bool :=
  match e with
  | Call _ ok => ok
  | Print _ => true
  end.

Definition is_put (e : event) : bool :=
  match e with
  | Call (ReqPutState _ _ _ _) _ => true
  | _ => false
  end.

(** What the loop does on a room whose `via` list already matches: the
    two fetches and the report line, and nothing for a skipped entry. *)
Definition already_matching (room : ChildEvent) : list event :=
  match room_key room with
  | Some room_id =>
      [Call (ReqJoinedMembers room_id) true;
       Call (ReqGetStateEvent room_id "m.room.power_levels" "") true;
       Print ("Skipping room " +:+ room_id +:+ ", 'via' servers already match.")]
  | None => []
  end.

(** A child entry that needs no update in world [w]: the loop skips it,
    or its published list equals, as a set, the servers computed from
    the room's members and power levels. *)
Definition settled {R : Runtime} (config : Config) (w : World) (room : ChildEvent) : Prop :=
  match room_key room with
  | None => True
  | Some k =>
      exists members power_levels servers,
        joined w k = JoinedMembersResponse members /\
        room_state w k "m.room.power_levels" "" = RoomGetStateEventResponse power_levels /\
        room_servers config members power_levels = Ok servers /\
        set_equal (via (content room)) servers = true
  end.

(** What identifies a state event of the space: its type and state key. *)
Definition entry_id (e : ChildEvent) : string * option string :=
  (type e, state_key e).

(** The root room's children as the homeserver currently publishes them. *)
Definition published_children (w : World) (space_id : string) : list ChildEvent :=
  match hierarchy w space_id with
  | SpaceGetHierarchyResponse (space :: _) => children_state space
  | _ => []
  end.

(** ** A small space used to run the model

    One space with three child entries: an entry of another type, an
    entry with an empty state key, and the room [!room:a.org] with four
    members on three servers; [@alice:a.org] is the only member above
    the default power level. *)

Definition example_config (ignore_errors dry_run : bool) : Config :=
  {| cfg_space_id := "!space:a.org";
     cfg_ignore_errors := ignore_errors;
     cfg_most_common_servers := 3;
     cfg_min_users_per_server := 2;
     cfg_additional_servers := ["extra.org"; "b.org"];
     cfg_optimal_via_servers := 3;
     cfg_ignore_requirementrs_to_reach_optimum := true;
     cfg_shuffle_order := true;
     cfg_dry_run := dry_run |}.

Definition example_room (via : list string) : ChildEvent :=
  {| type := "m.space.child"; state_key := Some "!room:a.org";
     content := {| suggested := Some false; via := via |} |}.

Definition example_topic : ChildEvent :=
  {| type := "m.room.topic"; state_key := Some "";
     content := {| suggested := None; via := [] |} |}.

Definition example_empty_key : ChildEvent :=
  {| type := "m.space.child"; state_key := Some "";
     content := {| suggested := None; via := ["a.org"] |} |}.

Definition example_members : list RoomMember :=
  [ {| user_id := "@alice:a.org" |}; {| user_id := "@bob:a.org" |};
    {| user_id := "@carol:b.org" |}; {| user_id := "@dave:c.org:8448" |} ].

Definition example_levels : PowerLevels :=
  {| users := Some {[ "@alice:a.org" := 100 ]}; users_default := None |}.

Definition example_error : ErrorResponse := {| err_str := "M_FORBIDDEN" |}.

Definition example_world (h : HierarchyResp) (m : MembersResp) (s : StateEventResp)
    (refused : option ErrorResponse) : World :=
  {| hierarchy := fun _ => h;
     joined := fun _ => m;
     room_state := fun _ _ _ => s;
     put_refused := fun _ _ => refused |}.

Definition example_children : list ChildEvent :=
  [example_topic; example_empty_key; example_room ["a.org"]].

Definition example_hierarchy : HierarchyResp :=
  SpaceGetHierarchyResponse [ {| children_state := example_children |} ].

Definition example_second_room : ChildEvent :=
  {| type := "m.space.child"; state_key := Some "!second:b.org";
     content := {| suggested := Some true; via := [] |} |}.

Definition example_two_rooms : HierarchyResp :=
  SpaceGetHierarchyResponse
    [ {| children_state := [example_room ["a.org"]; example_second_room] |} ].

Definition example_state (w : World) : @State simple_runtime :=
  @Build_State simple_runtime w tt [].

(** ** More vocabulary *)

(** The servers of the input that reach the threshold, each once. *)
Definition qualifying (lst : list string) (m : Z) : list string :=
  List.filter (fun s => m <=? Z.of_nat (count_occ string_dec lst s)) (remove_dups lst).

(** A request that stays within the configured space: the hierarchy of
    that space, the members or power levels of a room listed among the
    given child entries, or an [m.space.child] update of that space for
    such a room. *)
Definition request_in_scope (config : Config) (children : list ChildEvent)
    (req : request) : Prop :=
  match req with
  | ReqHierarchy sid => sid = cfg_space_id config
  | ReqJoinedMembers k => exists room, room ∈ children /\ room_key room = Some k
  | ReqGetStateEvent k ty key =>
      ty = "m.room.power_levels" /\ key = "" /\
      exists room, room ∈ children /\ room_key room = Some k
  | ReqPutState sid ty c k =>
      sid = cfg_space_id config /\ ty = "m.space.child" /\
      exists room, room ∈ children /\ room_key room = Some k
  end.

(** What holds of the events of a piece of the run: they stay in scope
    of the given entries; a dry run leaves the homeserver alone and
    sends no update; without shuffling the generator is not used. *)
Definition run_facts {R : Runtime} (config : Config) (rooms : list ChildEvent) (st st' : State) : Prop :=
  exists evs,
    trace st' = trace st ++ evs /\
    (forall req ok, Call req ok ∈ evs -> request_in_scope config rooms req) /\
    (cfg_dry_run config = true ->
     world st' = world st /\ forallb (fun e => negb (is_put e)) evs = true) /\
    (cfg_shuffle_order config = false -> random st' = random st).

(** ** The start-up code: credentials, login and [main] *)

(** [config_toml]: the [main] table, and the [credentials] table when
    the file has one.  The values of [credentials] are the strings that
    [write_details_to_disk] stores. *)
Record ConfigToml := {
  toml_main : Config;
  toml_credentials : option (list (string * string));
}.

Inductive LoginResp :=
| LoginResponse (uid device_id access_token : string)
| LoginError (e : ErrorResponse).

(** What [main] does that can be observed, in order: lines printed,
    prompts of [input] and [getpass], the login request, the dump of
    [config_toml] to the configuration file, the events of
    [update_via], and [client.close()]. *)
Inductive main_event :=
| Stdout (line : string)
| Prompt (prompt : string)
| Getpass
| Login (homeserver uid password device_name : string) (ok : bool)
| Dump (c : ConfigToml)
| Run (e : event)
| Close.

(** How [main] ends: it returns, [sys.exit(code)], [input] meets the end
    of the input, or an exception escapes. *)
Inductive main_result :=
| Returned
| SystemExit (code : Z)
| EOFError
| Uncaught (e : exn).

(** The double-quote character of the failure report. *)
Definition dquote : string := String (ascii_of_nat 34) EmptyString.

(** [answer or default] *)
Definition or_default (answer default : string) : string :=
  if String.eqb answer "" then default else answer.

(** Lines 195-196: a URL without scheme gets [https://]. *)
Definition with_scheme (homeserver : string) : string :=
  if String.prefix "https://" homeserver || String.prefix "http://" homeserver
  then homeserver
  else "https://" +:+ homeserver.

(** Lines 184-185: [not "credentials" in config_toml or any([not option
    for option in config_toml["credentials"].values()])]. *)
Definition first_time_use (c : ConfigToml) : bool :=
  match toml_credentials c with
  | None => true
  | Some credentials => existsb (fun kv => String.eqb (snd kv) "") credentials
  end.

(** [credentials[key]] *)
Definition credential (key : string) (credentials : list (string * string))
  : result string :=
  match dict_get key credentials with
  | Some v => Ok v
  | None => Raise (KeyError key)
  end.

(** The fixed lines and prompts of [main]. *)
Definition first_time_notice : string :=
  "First time use. Did not find credential information. Asking for "
  +:+ "homeserver, user, and password to create credential file.".

Definition homeserver_prompt : string :=
  "Enter your homeserver URL: [https://matrix.example.org] ".

Definition user_prompt : string := "Enter your full user ID: [@user:example.org] ".

Definition device_prompt : string := "Choose a name for this device: [matrix-nio] ".

Definition password_notice : string :=
  "Logged in using a password. Credentials were stored. "
  +:+ "Try running the script again to login with credentials.".

Definition stored_notice : string := "Logged in using stored credentials.".

Section Main.
Context {R : Runtime}.

(** The process: the module-level [config_toml], what the user will
    type, what the login request answers, the homeserver reached under
    each URL, the random generator, and the events so far. *)
Record Process := {
  config_toml : ConfigToml;
  stdin : list string;
  password : string;
  login_answer : string -> string -> string -> string -> LoginResp;
  network : string -> World;
  generator : rng;
  journal : list main_event;
}.

Definition record (evs : list main_event) (p : Process) : Process :=
  {| config_toml := config_toml p; stdin := stdin p; password := password p;
     login_answer := login_answer p; network := network p;
     generator := generator p; journal := journal p ++ evs |}.

(** [input(prompt)]: [None] stands for [EOFError]. *)
Definition input (prompt : string) (p : Process) : option string * Process :=
  match stdin p with
  | [] => (None, record [Prompt prompt] p)
  | answer :: rest =>
      (Some answer,
       {| config_toml := config_toml p; stdin := rest; password := password p;
          login_answer := login_answer p; network := network p;
          generator := generator p; journal := journal p ++ [Prompt prompt] |})
  end.

(** Lines 162-179. *)
Definition write_details_to_disk (uid device_id access_token homeserver : string)
    (p : Process) : Process :=
  let c :=
    {| toml_main := toml_main (config_toml p);
       toml_credentials :=
         Some [("homeserver", homeserver); ("user_id", uid);
               ("device_id", device_id); ("access_token", access_token)] |} in
  {| config_toml := c; stdin := stdin p; password := password p;
     login_answer := login_answer p; network := network p;
     generator := generator p; journal := journal p ++ [Dump c] |}.

(** Lines 231-234: [await update_via(client)] with the client of the
    given homeserver, then [await client.close()]. *)
Definition update_and_close (homeserver : string) (p : Process)
  : main_result * Process :=
  let st := {| world := network p homeserver; random := generator p; trace := [] |} in
  let '(r, st') := update_via (toml_main (config_toml p)) st in
  let p' :=
    {| config_toml := config_toml p; stdin := stdin p; password := password p;
       login_answer := login_answer p;
       network := fun h => if String.eqb h homeserver then world st' else network p h;
       generator := random st';
       journal := journal p ++ map Run (trace st') |} in
  match r with
  | Ok _ => (Returned, record [Close] p')
  | Raise e => (Uncaught e, p')
  end.

(** Lines 182-234. *)
Definition main (p : Process) : main_result * Process :=
  if first_time_use (config_toml p) then
    let p := record [Stdout first_time_notice] p in
    match input homeserver_prompt p with
    | (None, p) => (EOFError, p)
    | (Some answer, p) =>
    let homeserver := with_scheme (or_default answer "https://matrix.example.org") in
    match input user_prompt p with
    | (None, p) => (EOFError, p)
    | (Some answer, p) =>
    let uid := or_default answer "@user:example.org" in
    match input device_prompt p with
    | (None, p) => (EOFError, p)
    | (Some answer, p) =>
    let device_name := or_default answer "matrix-nio" in
    let p := record [Getpass] p in
    let pw := password p in
    match login_answer p homeserver uid pw device_name with
    | LoginResponse uid' device_id access_token =>
        let p := record [Login homeserver uid pw device_name true] p in
        let p := write_details_to_disk uid' device_id access_token homeserver p in
        let p := record [Stdout password_notice] p in
        update_and_close homeserver p
    | LoginError e =>
        let p := record [Login homeserver uid pw device_name false;
                         Stdout ("homeserver = " +:+ dquote +:+ homeserver +:+ dquote
                                 +:+ "; user = " +:+ dquote +:+ uid +:+ dquote);
                         Stdout ("Failed to log in: " +:+ err_str e)] p in
        (SystemExit 1, p)
    end end end end
  else
    let credentials := default [] (toml_credentials (config_toml p)) in
    match credential "homeserver" credentials with
    | Raise e => (Uncaught e, p)
    | Ok homeserver =>
    match credential "access_token" credentials with
    | Raise e => (Uncaught e, p)
    | Ok _ =>
    match credential "user_id" credentials with
    | Raise e => (Uncaught e, p)
    | Ok _ =>
    match credential "device_id" credentials with
    | Raise e => (Uncaught e, p)
    | Ok _ =>
        let p := record [Stdout stored_notice] p in
        update_and_close homeserver p
    end end end end.

(** How a run of [update_via] shows in [main]: its result, and whether
    [client.close()] is reached. *)
Definition run_result (r : result unit) : main_result :=
  match r with
  | Ok _ => Returned
  | Raise e => Uncaught e
  end.

Definition run_closing (r : result unit) : list main_event :=
  match r with
  | Ok _ => [Close]
  | Raise _ => []
  end.

(** The run [main] starts for a homeserver. *)
Definition run_of (homeserver : string) (p : Process) : result unit * State :=
  update_via (toml_main (config_toml p))
    {| world := network p homeserver; random := generator p; trace := [] |}.

End Main.

(** ** The configuration file *)

(** [config.toml] as its bytes.  The script reads the file once, when
    the module is loaded (lines 19-20), and writes it in
    [write_details_to_disk] (lines 178-179).  [tomllib] and [tomli_w]
    are libraries: [loads] is what [tomllib.load] makes of the bytes of
    a file ([None] when it raises), [dumps] the bytes that
    [tomli_w.dump] writes for a dictionary. *)
Class Toml := {
  loads : list Byte.byte -> option ConfigToml;
  dumps : ConfigToml -> list Byte.byte;
}.

(** Writing [data] to a file opened in mode [r+b]: the position starts
    at 0, the bytes are written over those of the file, and closing does
    not truncate, so what the file held beyond the data stays. *)
Definition write_from_start (data file : list Byte.byte) : list Byte.byte :=
  data ++ drop (length data) file.

(** The file after the events of a process: every [Dump] is one pass
    through lines 178-179. *)
Definition file_after {T : Toml} (evs : list main_event) (file : list Byte.byte)
  : list Byte.byte :=
  fold_left (fun file e =>
               match e with
               | Dump c => write_from_start (dumps c) file
               | _ => file
               end) evs file.

Section File.
Context {R : Runtime} {T : Toml}.

(** The process of a start on the configuration [c]: [p] gives the
    surroundings (what is typed, the login answer, the network). *)
Definition loaded (c : ConfigToml) (p : Process) : Process :=
  {| config_toml := c; stdin := stdin p; password := password p;
     login_answer := login_answer p; network := network p;
     generator := generator p; journal := journal p |}.

(** Lines 19-20 and 245: loading the module reads the file, then [main]
    runs.  [None] stands for the exception of [tomllib.load]. *)
Definition start (file : list Byte.byte) (p : Process) : option (main_result * Process) :=
  match loads file with
  | Some c => Some (main (loaded c p))
  | None => None
  end.

End File.

(** ** More of the example: a process around the space *)

Definition example_plain_config : Config :=
  {| cfg_space_id := "!space:a.org";
     cfg_ignore_errors := false;
     cfg_most_common_servers := 3;
     cfg_min_users_per_server := 2;
     cfg_additional_servers := ["extra.org"; "b.org"];
     cfg_optimal_via_servers := 3;
     cfg_ignore_requirementrs_to_reach_optimum := true;
     cfg_shuffle_order := false;
     cfg_dry_run := false |}.

Definition example_unflagged_room : ChildEvent :=
  {| type := "m.space.child"; state_key := Some "!room:a.org";
     content := {| suggested := None; via := ["a.org"] |} |}.

Definition example_live_world : World :=
  example_world example_hierarchy (JoinedMembersResponse example_members)
    (RoomGetStateEventResponse example_levels) None.

Definition example_credentials : list (string * string) :=
  [("homeserver", "https://matrix.a.org"); ("user_id", "@bot:a.org");
   ("device_id", "DEVICE"); ("access_token", "token")].

Definition example_process (credentials : option (list (string * string)))
    (typed : list string) (answer : LoginResp) : @Process simple_runtime :=
  @Build_Process simple_runtime
    {| toml_main := example_config false false; toml_credentials := credentials |}
    typed "secret" (fun _ _ _ _ => answer) (fun _ => example_live_world) tt [].

(** A small writer and reader for the example, in place of the TOML
    library: one line [key=value] for each credential; the [main] table
    is that of the example. *)
Definition newline : ascii := ascii_of_nat 10.

Definition example_dumps (c : ConfigToml) : list Byte.byte :=
  list_byte_of_string
    (String.concat ""
       (map (fun kv => fst kv +:+ "=" +:+ snd kv +:+ String newline EmptyString)
            (default [] (toml_credentials c)))).

Definition example_line (line : string) : option (string * string) :=
  match split "=" line with
  | [k; v] => Some (k, v)
  | _ => None
  end.

Fixpoint example_lines (lines : list string) : option (list (string * string)) :=
  match lines with
  | [] => Some []
  | [EmptyString] => Some []
  | line :: rest =>
      match example_line line, example_lines rest with
      | Some kv, Some kvs => Some (kv :: kvs)
      | _, _ => None
      end
  end.

Definition example_loads (file : list Byte.byte) : option ConfigToml :=
  match example_lines (split newline (string_of_list_byte file)) with
  | Some [] => Some {| toml_main := example_config false false; toml_credentials := None |}
  | Some kvs => Some {| toml_main := example_config false false;
                        toml_credentials := Some kvs |}
  | None => None
  end.

Definition example_toml : Toml := {| loads := example_loads; dumps := example_dumps |}.

(** The example's file before the first login: a comment, no table. *)
Definition example_short_file : list Byte.byte := list_byte_of_string "# bot".

(** A file that holds a longer token than the one stored next. *)
Definition example_long_file : list Byte.byte :=
  example_dumps
    {| toml_main := example_config false false;
       toml_credentials :=
         Some [("homeserver", "https://matrix.a.org"); ("user_id", "@bot:a.org");
               ("device_id", "DEVICE"); ("access_token", "a-much-longer-token")] |}.

(** * Properties *)

(** ** [split] and [get_user_homeserver] *)

Example split_ex : split ":" "@user:example.org:8448" = ["@user"; "example.org"; "8448"].
Proof. reflexivity. Qed.

Lemma split_nonempty sep s : split sep s <> [].
Proof.
  destruct s as [|c s]; simpl; [discriminate|].
  destruct (Ascii.eqb c sep); [discriminate|].
  destruct (split sep s); discriminate.
Qed.

Lemma split_no_sep sep s : count_char sep s = 0%nat -> split sep s = [s].
Proof.
  induction s as [|c s IH]; simpl; [reflexivity|].
  destruct (Ascii.eqb c sep); [discriminate|].
  intros H. rewrite IH by exact H. reflexivity.
Qed.

Lemma split_first sep s :
  (1 <= count_char sep s)%nat ->
  exists a rest,
    s = a +:+ String sep rest /\ count_char sep a = 0%nat /\
    split sep s = a :: split sep rest /\
    count_char sep s = S (count_char sep rest).
Proof.
  induction s as [|c s IH]; simpl; [lia|].
  destruct (Ascii.eqb c sep) eqn:E.
  - intros _. apply Ascii.eqb_eq in E. subst c.
    exists EmptyString, s. repeat split; reflexivity.
  - intros H. destruct (IH H) as (a & rest & -> & Ha & Hs & Hc).
    exists (String c a), rest. simpl. rewrite E, Hs. repeat split; assumption.
Qed.

(** C10: an identifier with two or more ':' yields the segment between
    the first and the second ':' (whatever follows the second one, such
    as a port, is dropped without an error), and the call fails with
    [IndexError] exactly for identifiers without any ':'. *)
Theorem get_user_homeserver_extra_delimiters (uid : string) :
  ((2 <= count_char ":" uid)%nat ->
   exists a b c,
     uid = a +:+ ":" +:+ b +:+ ":" +:+ c /\
     count_char ":" a = 0%nat /\ count_char ":" b = 0%nat /\
     get_user_homeserver uid = Ok b)
  /\ (get_user_homeserver uid = Raise IndexError <-> count_char ":" uid = 0%nat).
Proof.
  unfold get_user_homeserver. split.
  - intros H.
    destruct (split_first ":" uid) as (a & rest & -> & Ha & Hs & Hc); [lia|].
    destruct (split_first ":" rest) as (b & c & -> & Hb & Hs' & _); [lia|].
    exists a, b, c. rewrite Hs, Hs'. repeat split; assumption.
  - split.
    + intros H. destruct (count_char ":" uid) eqn:E; [reflexivity|].
      destruct (split_first ":" uid) as (a & rest & _ & _ & Hs & _); [lia|].
      rewrite Hs in H. pose proof (split_nonempty ":" rest) as Hne.
      destruct (split ":" rest); [congruence|]. discriminate.
    + intros H. rewrite split_no_sep by exact H. reflexivity.
Qed.

Lemma get_user_homeserver_extra_delimiters_witness :
  (2 <= count_char ":" "@user:example.org:8448")%nat /\
  exists a b c,
    "@user:example.org:8448" = a +:+ ":" +:+ b +:+ ":" +:+ c /\
    count_char ":" a = 0%nat /\ count_char ":" b = 0%nat /\
    get_user_homeserver "@user:example.org:8448" = Ok b.
Proof.
  split.
  - vm_compute. lia.
  - apply (proj1 (get_user_homeserver_extra_delimiters "@user:example.org:8448")).
    vm_compute. lia.
Defined.

Example get_user_homeserver_port :
  get_user_homeserver "@user:example.org:8448" = Ok "example.org".
Proof. reflexivity. Qed.

(** ** Dictionaries, [Counter], sorting and slicing *)

Lemma dict_get_set {V} (k k' : string) (v : V) d :
  dict_get k (dict_set k' v d) = if String.eqb k' k then Some v else dict_get k d.
Proof.
  induction d as [|[k0 v0] d IH]; simpl; [reflexivity|].
  destruct (String.eqb k0 k') eqn:E0; simpl.
  - apply String.eqb_eq in E0. subst k0. destruct (String.eqb k' k); reflexivity.
  - rewrite IH. destruct (String.eqb k0 k) eqn:E1; [|reflexivity].
    apply String.eqb_eq in E1. subst k0.
    destruct (String.eqb k' k) eqn:E2; [|reflexivity].
    apply String.eqb_eq in E2. subst k'. rewrite String.eqb_refl in E0. discriminate.
Qed.

Lemma dict_set_key {V} (k : string) (v : V) d x :
  x ∈ (dict_set k v d).*1 -> x = k \/ x ∈ d.*1.
Proof.
  induction d as [|[k0 v0] d IH]; simpl.
  - intros H. apply list_elem_of_singleton in H. auto.
  - destruct (String.eqb k0 k); simpl; intros H; [auto|].
    apply elem_of_cons in H as [->|H]; [right; left|].
    destruct (IH H); [auto|right; right; assumption].
Qed.

Lemma dict_set_NoDup {V} (k : string) (v : V) d :
  NoDup d.*1 -> NoDup (dict_set k v d).*1.
Proof.
  induction d as [|[k0 v0] d IH]; simpl; intros H.
  - apply NoDup_singleton.
  - apply NoDup_cons in H as [Hk0 Hd].
    destruct (String.eqb k0 k) eqn:E; simpl.
    + apply NoDup_cons; auto.
    + apply NoDup_cons. split; [|auto].
      intros Hin. apply dict_set_key in Hin as [->|Hin]; [|contradiction].
      rewrite String.eqb_refl in E. discriminate.
Qed.

Lemma dict_get_elem {V} (k : string) (v : V) d :
  NoDup d.*1 -> (k, v) ∈ d -> dict_get k d = Some v.
Proof.
  induction d as [|[k0 v0] d IH]; simpl; intros Hnd Hin.
  - inversion Hin.
  - apply NoDup_cons in Hnd as [Hk0 Hd].
    apply elem_of_cons in Hin as [Heq|Hin].
    + inversion Heq; subst. rewrite String.eqb_refl. reflexivity.
    + destruct (String.eqb k0 k) eqn:E; [|auto].
      apply String.eqb_eq in E. subst k0. exfalso. apply Hk0.
      apply list_elem_of_fmap. exists (k, v). auto.
Qed.

Lemma elem_of_dict_get {V} (k : string) (v : V) d :
  dict_get k d = Some v -> (k, v) ∈ d.
Proof.
  induction d as [|[k0 v0] d IH]; simpl; [discriminate|].
  destruct (String.eqb k0 k) eqn:E.
  - apply String.eqb_eq in E. intros [= ->]. subst. left.
  - intros H. right. auto.
Qed.

Lemma counter_fold_get lst : forall acc s,
  dict_get s (fold_left count_step lst acc) =
  match count_occ string_dec lst s with
  | O => dict_get s acc
  | S n => Some (S n + default 0 (dict_get s acc))%nat
  end.
Proof.
  induction lst as [|x lst IH]; intros acc s; simpl; [reflexivity|].
  rewrite IH. unfold count_step. rewrite !dict_get_set.
  destruct (string_dec x s) as [->|Hne].
  - rewrite String.eqb_refl.
    destruct (count_occ string_dec lst s), (dict_get s acc); simpl; f_equal; lia.
  - apply String.eqb_neq in Hne. rewrite Hne. reflexivity.
Qed.

Lemma counter_fold_NoDup lst : forall acc,
  NoDup acc.*1 -> NoDup (fold_left count_step lst acc).*1.
Proof.
  induction lst as [|x lst IH]; intros acc H; simpl; [exact H|].
  apply IH. apply dict_set_NoDup. exact H.
Qed.

Lemma Counter_elem lst s c :
  (s, c) ∈ Counter lst -> c = count_occ string_dec lst s.
Proof.
  intros H. apply dict_get_elem in H.
  - unfold Counter in H.
    rewrite counter_fold_get in H. simpl in H.
    destruct (count_occ string_dec lst s); [discriminate|].
    injection H as <-. lia.
  - apply (counter_fold_NoDup lst []). apply NoDup_nil_2.
Qed.

Lemma Counter_key lst s : s ∈ (Counter lst).*1 <-> s ∈ lst.
Proof.
  rewrite (list_elem_of_In lst s), (count_occ_In string_dec). split.
  - intros H. apply list_elem_of_fmap in H as ([s' c] & -> & H). simpl.
    apply dict_get_elem in H.
    + unfold Counter in H.
      rewrite counter_fold_get in H. simpl in H.
      destruct (count_occ string_dec lst s'); [discriminate|lia].
    + apply (counter_fold_NoDup lst []). apply NoDup_nil_2.
  - intros H. apply list_elem_of_fmap.
    exists (s, count_occ string_dec lst s). split; [reflexivity|].
    apply elem_of_dict_get.
    unfold Counter.
    rewrite counter_fold_get. simpl.
    destruct (count_occ string_dec lst s); [lia|]. f_equal. lia.
Qed.

Lemma insert_desc_perm {A} (key : A -> nat) x l : insert_desc key x l ≡ₚ x :: l.
Proof.
  induction l as [|y l IH]; simpl; [reflexivity|].
  destruct (key x <? key y)%nat; [|reflexivity].
  rewrite IH. apply Permutation_swap.
Qed.

Lemma sorted_reverse_perm {A} (key : A -> nat) l : sorted_reverse key l ≡ₚ l.
Proof.
  induction l as [|x l IH]; simpl; [reflexivity|].
  rewrite insert_desc_perm, IH. reflexivity.
Qed.

Lemma slice_to_elem {A} (n : Z) (l : list A) x : x ∈ slice_to n l -> x ∈ l.
Proof. unfold slice_to. apply subseteq_take. Qed.

Lemma slice_to_length {A} (n : Z) (l : list A) :
  0 <= n -> Z.of_nat (length (slice_to n l)) <= n.
Proof.
  intros Hn. unfold slice_to.
  destruct (n <? 0) eqn:E; [apply Z.ltb_lt in E; lia|].
  rewrite length_take. lia.
Qed.

(** ** [most_common_servers] *)

Example most_common_servers_scenario : most_common_servers ["X"; "X"; "Y"] 5 2 = ["X"].
Proof. reflexivity. Qed.

Lemma most_common_servers_elem lst n m s :
  s ∈ most_common_servers lst n m ->
  s ∈ lst /\ m <= Z.of_nat (count_occ string_dec lst s).
Proof.
  unfold most_common_servers. intros H.
  apply list_elem_of_fmap in H as ([s' c] & -> & H). simpl.
  apply slice_to_elem in H. rewrite sorted_reverse_perm in H.
  apply list_elem_of_In, filter_In in H as [H Hm]. apply list_elem_of_In in H.
  simpl in Hm. apply Z.leb_le in Hm. split.
  - apply Counter_key. apply list_elem_of_fmap. exists (s', c). auto.
  - apply Counter_elem in H. subst c. exact Hm.
Qed.

(** C5: for every input list, every maximum count [n] and every
    threshold [m], [most_common_servers] returns at most [n] servers,
    and each returned server occurs at least [m] times in the input
    list. *)
Theorem most_common_servers_bounds (lst : list string) (n : nat) (m : Z) :
  (length (most_common_servers lst (Z.of_nat n) m) <= n)%nat
  /\ (forall s, s ∈ most_common_servers lst (Z.of_nat n) m ->
                m <= Z.of_nat (count_occ string_dec lst s)).
Proof.
  split.
  - assert (H : Z.of_nat (length (most_common_servers lst (Z.of_nat n) m))
                <= Z.of_nat n); [|lia].
    unfold most_common_servers. rewrite length_map.
    apply slice_to_length. lia.
  - intros s H. apply most_common_servers_elem in H. tauto.
Qed.

Lemma most_common_servers_bounds_witness :
  (length (most_common_servers ["X"; "Y"; "X"; "Z"] 1 1) <= 1)%nat /\
  1 <= Z.of_nat (count_occ string_dec ["X"; "Y"; "X"; "Z"] "X").
Proof.
  destruct (most_common_servers_bounds ["X"; "Y"; "X"; "Z"] 1 1) as [Hlen Hocc].
  split; [exact Hlen|]. apply Hocc. apply list_elem_of_here.
Defined.

(** ** Comprehensions, [max], and [get_highest_level_members] *)

Lemma comprehension_elem {A B} (f : A -> result B) l : forall ys,
  comprehension f l = Ok ys ->
  forall y, y ∈ ys <-> exists x, x ∈ l /\ f x = Ok y.
Proof.
  induction l as [|x l IH]; simpl; intros ys H y.
  - injection H as <-. split.
    + intros Hin. inversion Hin.
    + intros (x & Hin & _). inversion Hin.
  - destruct (f x) as [b|e] eqn:Ef; simpl in H; [|discriminate].
    destruct (comprehension f l) as [bs|e]; simpl in H; [|discriminate].
    injection H as <-. rewrite elem_of_cons, (IH bs eq_refl y). split.
    + intros [->|(x' & Hin & Hx')]; [exists x; split; [left|exact Ef]|].
      exists x'. split; [right; exact Hin|exact Hx'].
    + intros (x' & Hin & Hx'). apply elem_of_cons in Hin as [->|Hin].
      * left. congruence.
      * right. eauto.
Qed.

Lemma fold_left_max_spec l : forall v,
  fold_left Z.max l v ∈ v :: l /\ forall x, x ∈ v :: l -> x <= fold_left Z.max l v.
Proof.
  induction l as [|y l IH]; intros v; simpl.
  - split; [left|]. intros x Hx. apply list_elem_of_singleton in Hx. lia.
  - destruct (IH (Z.max v y)) as [Hin Hub]. split.
    + apply elem_of_cons in Hin as [Heq|Hin].
      * rewrite Heq. destruct (Z.max_spec v y) as [[_ ->]|[_ ->]]; [right; left|left].
      * right; right; exact Hin.
    + intros x Hx. assert (Z.max v y <= fold_left Z.max l (Z.max v y)) by (apply Hub; left).
      apply elem_of_cons in Hx as [->|Hx]; [lia|].
      apply elem_of_cons in Hx as [->|Hx]; [lia|].
      apply Hub. right. exact Hx.
Qed.

Lemma py_max_spec values :
  values <> [] ->
  exists highest, py_max values = Ok highest /\ highest ∈ values /\
                  forall v, v ∈ values -> v <= highest.
Proof.
  destruct values as [|v values]; [congruence|]. intros _. simpl.
  eexists. split; [reflexivity|]. apply fold_left_max_spec.
Qed.

Example get_highest_level_members_scenario :
  get_highest_level_members [("@a:X", 100); ("@b:Y", 100); ("@c:Z", 0)] 50
  = Ok ["@a:X"; "@b:Y"].
Proof. reflexivity. Qed.

(** C6: on a non-empty mapping the call returns; with [highest] the
    largest level present, the result is empty when [highest <= 50], and
    otherwise consists of exactly the members at level [highest] (every
    tie included); the authority servers are the homeservers of the
    returned members. *)
Theorem get_highest_level_members_spec (member_levels : list (string * Z)) :
  member_levels <> [] ->
  exists highest members,
    get_highest_level_members member_levels 50 = Ok members /\
    highest ∈ member_levels.*2 /\
    (forall v, v ∈ member_levels.*2 -> v <= highest) /\
    (highest <= 50 -> members = []) /\
    (50 < highest -> forall uid, uid ∈ members <-> (uid, highest) ∈ member_levels) /\
    (forall servers,
        comprehension get_user_homeserver members = Ok servers ->
        forall s, s ∈ servers <->
                  exists uid, uid ∈ members /\ get_user_homeserver uid = Ok s).
Proof.
  intros Hne. unfold get_highest_level_members.
  destruct (py_max_spec (map snd member_levels)) as (highest & Hmax & Hin & Hub).
  { destruct member_levels; [congruence|discriminate]. }
  rewrite Hmax. simpl. exists highest.
  destruct (highest <=? 50) eqn:E.
  - apply Z.leb_le in E. exists [].
    split; [reflexivity|]. split; [exact Hin|]. split; [exact Hub|].
    split; [reflexivity|]. split; [lia|].
    intros servers Hs. apply comprehension_elem. exact Hs.
  - apply Z.leb_gt in E. eexists.
    split; [reflexivity|]. split; [exact Hin|]. split; [exact Hub|].
    split; [lia|]. split.
    + intros _ uid. split.
      * intros Huid. apply list_elem_of_fmap in Huid as ([uid' v] & -> & Huid).
        apply list_elem_of_In, filter_In in Huid as [Huid Hv]. simpl in *.
        apply Z.eqb_eq in Hv. subst v. apply list_elem_of_In. exact Huid.
      * intros Huid. apply list_elem_of_fmap. exists (uid, highest).
        split; [reflexivity|].
        apply list_elem_of_In, filter_In. split; [apply list_elem_of_In; exact Huid|].
        simpl. apply Z.eqb_refl.
    + intros servers Hs. apply comprehension_elem. exact Hs.
Qed.

Lemma get_highest_level_members_spec_witness :
  exists highest members,
    get_highest_level_members [("@a:X", 100); ("@b:Y", 100); ("@c:Z", 0)] 50
      = Ok members /\
    highest ∈ [("@a:X", 100); ("@b:Y", 100); ("@c:Z", 0)].*2 /\
    (forall v, v ∈ [("@a:X", 100); ("@b:Y", 100); ("@c:Z", 0)].*2 -> v <= highest) /\
    (highest <= 50 -> members = []) /\
    (50 < highest ->
     forall uid, uid ∈ members <->
                 (uid, highest) ∈ [("@a:X", 100); ("@b:Y", 100); ("@c:Z", 0)]) /\
    (forall servers,
        comprehension get_user_homeserver members = Ok servers ->
        forall s, s ∈ servers <->
                  exists uid, uid ∈ members /\ get_user_homeserver uid = Ok s).
Proof.
  apply (get_highest_level_members_spec [("@a:X", 100); ("@b:Y", 100); ("@c:Z", 0)]).
  discriminate.
Defined.

(** ** What a successful update changes on the homeserver *)

Lemma elem_of_set_child ty k c cur e :
  e ∈ set_child ty k c cur ->
  (e ∈ cur /\ is_event ty k e = false)
  \/ (type e = ty /\ state_key e = Some k /\ content e = c).
Proof.
  unfold set_child. destruct (existsb (is_event ty k) cur) eqn:E; intros H.
  - apply list_elem_of_fmap in H as (e0 & -> & H0).
    destruct (is_event ty k e0) eqn:Ei; [right|left; auto].
    unfold is_event in Ei. apply andb_true_iff in Ei as [Ety Ekey].
    apply String.eqb_eq in Ety. apply bool_decide_eq_true in Ekey. auto.
  - apply elem_of_app in H as [H|H].
    + left. split; [exact H|].
      destruct (is_event ty k e) eqn:Ei; [|reflexivity].
      assert (existsb (is_event ty k) cur = true); [|congruence].
      apply existsb_exists. exists e. split; [apply list_elem_of_In; exact H|exact Ei].
    + apply list_elem_of_singleton in H. subst e. right. auto.
Qed.

Lemma elem_of_published_put sid ty k c w e :
  e ∈ published_children (put_world sid ty k c w) sid ->
  (e ∈ published_children w sid /\ is_event ty k e = false)
  \/ (type e = ty /\ state_key e = Some k /\ content e = c).
Proof.
  unfold published_children, put_world. simpl. rewrite String.eqb_refl.
  destruct (hierarchy w sid) as [[|space rest]|err]; simpl.
  - inversion 1.
  - apply elem_of_set_child.
  - inversion 1.
Qed.

Lemma is_event_entry_id ty k e e' :
  entry_id e = entry_id e' -> is_event ty k e = is_event ty k e'.
Proof. unfold entry_id, is_event. intros [= -> ->]. reflexivity. Qed.

Lemma set_child_entries ty k c cur :
  existsb (is_event ty k) cur = true ->
  map entry_id (set_child ty k c cur) = map entry_id cur.
Proof.
  intros H. unfold set_child. rewrite H, map_map. apply map_ext.
  intros e. destruct (is_event ty k e); reflexivity.
Qed.

Lemma published_put_entries sid ty k c w e :
  e ∈ published_children w sid -> is_event ty k e = true ->
  map entry_id (published_children (put_world sid ty k c w) sid)
  = map entry_id (published_children w sid).
Proof.
  unfold published_children, put_world. simpl. rewrite String.eqb_refl.
  destruct (hierarchy w sid) as [[|space rest]|err]; simpl; try reflexivity.
  intros He Hev. apply set_child_entries, existsb_exists.
  exists e. split; [apply list_elem_of_In; exact He|exact Hev].
Qed.

Lemma hierarchy_put sid ty k c w space rest :
  hierarchy w sid = SpaceGetHierarchyResponse (space :: rest) ->
  exists space',
    hierarchy (put_world sid ty k c w) sid = SpaceGetHierarchyResponse (space' :: rest).
Proof.
  intros H. unfold put_world. simpl. rewrite String.eqb_refl, H. simpl. eauto.
Qed.

Lemma room_key_intro e k :
  type e = "m.space.child" -> state_key e = Some k -> k <> "" -> room_key e = Some k.
Proof.
  intros Hty Hsk Hne. unfold room_key. rewrite Hty, Hsk. simpl.
  destruct k; [congruence|reflexivity].
Qed.

Lemma room_key_is_event e k :
  room_key e = Some k -> is_event "m.space.child" k e = true.
Proof.
  intros H. unfold room_key in H. unfold is_event.
  destruct (String.eqb (type e) "m.space.child"); [|discriminate]. simpl.
  apply bool_decide_eq_true. destruct (state_key e) as [[|a s0]|]; congruence.
Qed.

Lemma forallb_ok_prefix (l evs : list event) :
  forallb event_ok (l ++ evs) = true -> forallb event_ok l = true.
Proof. rewrite forallb_app. intros H. apply andb_true_iff in H. tauto. Qed.

(** ** The loop body, case by case *)

Section Run.
Context {R : Runtime}.

Lemma room_key_Some room k :
  room_key room = Some k ->
  String.eqb (type room) "m.space.child" = true /\ state_key room = Some k /\ k <> "".
Proof.
  unfold room_key. destruct (String.eqb (type room) "m.space.child"); [|discriminate].
  destruct (state_key room) as [[|c s]|]; [discriminate| |discriminate].
  intros [= <-]. repeat split; discriminate.
Qed.

Lemma room_key_None room :
  room_key room = None <->
  type room <> "m.space.child" \/ state_key room = None \/ state_key room = Some "".
Proof.
  unfold room_key. destruct (String.eqb (type room) "m.space.child") eqn:E.
  - apply String.eqb_eq in E.
    destruct (state_key room) as [[|c s]|]; split; auto; try discriminate.
    intros [H|[H|H]]; [contradiction|discriminate|discriminate].
  - apply String.eqb_neq in E. split; auto.
Qed.

Lemma log_log evs1 evs2 (st : State) : log evs2 (log evs1 st) = log (evs1 ++ evs2) st.
Proof. unfold log. simpl. rewrite <- app_assoc. reflexivity. Qed.

Lemma log_nil (st : State) : log [] st = st.
Proof. unfold log. rewrite app_nil_r. destruct st; reflexivity. Qed.

Lemma process_room_skip config room st :
  room_key room = None -> process_room config room st = (Ok tt, st).
Proof.
  intros H. unfold process_room. unfold room_key in H.
  destruct (String.eqb (type room) "m.space.child"); [|reflexivity]. simpl.
  destruct (state_key room) as [[|c s]|]; [reflexivity|discriminate|reflexivity].
Qed.

Lemma process_room_eq config room k st :
  room_key room = Some k ->
  process_room config room st =
  match joined (world st) k with
  | JoinedMembersError e =>
      if cfg_ignore_errors config
      then (Ok tt, log [Call (ReqJoinedMembers k) false;
                        Print ("Skipping room " +:+ k +:+ ": " +:+ err_str e)] st)
      else (Raise (RaisedResponse e), log [Call (ReqJoinedMembers k) false] st)
  | JoinedMembersResponse members =>
      match comprehension (fun member => get_user_homeserver (user_id member)) members with
      | Raise e => (Raise e, log [Call (ReqJoinedMembers k) true] st)
      | Ok _ =>
          match room_state (world st) k "m.room.power_levels" "" with
          | RoomGetStateEventError _ =>
              (Raise (AttributeError "content"),
               log [Call (ReqJoinedMembers k) true;
                    Call (ReqGetStateEvent k "m.room.power_levels" "") false] st)
          | RoomGetStateEventResponse power_levels =>
              match room_servers config members power_levels with
              | Raise e =>
                  (Raise e,
                   log [Call (ReqJoinedMembers k) true;
                        Call (ReqGetStateEvent k "m.room.power_levels" "") true] st)
              | Ok servers =>
                  apply_update config room k servers
                    (log [Call (ReqJoinedMembers k) true;
                          Call (ReqGetStateEvent k "m.room.power_levels" "") true] st)
              end
          end
      end
  end.
Proof.
  intros Hk. apply room_key_Some in Hk as (Hty & Hsk & Hne).
  unfold process_room. rewrite Hty, Hsk. simpl.
  destruct k as [|c k]; [congruence|].
  unfold bind at 1. unfold joined_members, bind, emit, ret. simpl.
  destruct (joined (world st) (String c k)) as [members|e]; simpl.
  - unfold room_servers, lift.
    destruct (comprehension _ members) as [all_servers|e]; simpl; [|reflexivity].
    unfold room_get_state_event, bind, emit, ret. simpl.
    destruct (room_state (world st) (String c k) "m.room.power_levels" "")
      as [power_levels|e]; simpl.
    + destruct (get_highest_level_members _ 50) as [hm|e]; simpl;
        [|unfold log; simpl; rewrite <- app_assoc; reflexivity].
      destruct (comprehension get_user_homeserver hm) as [hs|e]; simpl;
        unfold log; simpl; rewrite <- app_assoc; reflexivity.
    + unfold log; simpl; rewrite <- app_assoc; reflexivity.
  - destruct (cfg_ignore_errors config); [|reflexivity].
    unfold print, emit, log. simpl. rewrite <- app_assoc. reflexivity.
Qed.

Lemma apply_update_eq config room k servers st :
  apply_update config room k servers st =
  if set_equal (via (content room)) servers
  then (Ok tt,
        log [Print ("Skipping room " +:+ k +:+ ", 'via' servers already match.")] st)
  else
    let servers' := fst (shuffled config servers (random st)) in
    let g := snd (shuffled config servers (random st)) in
    match suggested (content room) with
    | None =>
        (Raise (KeyError "suggested"),
         {| world := world st; random := g; trace := trace st |})
    | Some b =>
        let c := {| suggested := Some b; via := servers' |} in
        let put := Call (ReqPutState (cfg_space_id config) "m.space.child" c k) in
        let report := [Print ("Before: " +:+ join ", " (via (content room)));
                       Print ("After: " +:+ join ", " servers')] in
        if cfg_dry_run config
        then (Ok tt,
              {| world := world st; random := g;
                 trace := trace st
                          ++ Print ("DRY RUN: Would have updated room " +:+ k) :: report |})
        else
          match put_refused (world st) (cfg_space_id config) k with
          | None =>
              (Ok tt,
               {| world := put_world (cfg_space_id config) "m.space.child" k c (world st);
                  random := g;
                  trace := trace st ++ put true :: Print ("Updated room " +:+ k) :: report |})
          | Some e =>
              if cfg_ignore_errors config
              then (Ok tt,
                    {| world := world st; random := g;
                       trace := trace st
                                ++ put false
                                   :: Print ("Could not update room " +:+ k
                                             +:+ ", skipping: " +:+ err_str e)
                                   :: report |})
              else (Raise (ErrorUpdatingState e),
                    {| world := world st; random := g; trace := trace st ++ [put false] |})
          end
    end.
Proof.
  unfold apply_update.
  destruct (set_equal (via (content room)) servers); [reflexivity|].
  unfold shuffled, bind at 1.
  assert (Hsh : (if cfg_shuffle_order config then random_shuffle servers else ret servers) st
                = (Ok (fst (if cfg_shuffle_order config then shuffle servers (random st)
                            else (servers, random st))),
                   {| world := world st;
                      random := snd (if cfg_shuffle_order config
                                     then shuffle servers (random st)
                                     else (servers, random st));
                      trace := trace st |})).
  { destruct (cfg_shuffle_order config).
    - unfold random_shuffle. destruct (shuffle servers (random st)). reflexivity.
    - unfold ret. destruct st. reflexivity. }
  rewrite Hsh. clear Hsh. cbv zeta.
  unfold bind at 1. unfold lift, get_suggested.
  destruct (suggested (content room)) as [b|]; [|reflexivity].
  unfold bind at 1.
  destruct (cfg_dry_run config); simpl.
  - unfold bind, print, emit. simpl. rewrite <- !app_assoc. reflexivity.
  - unfold bind at 1. unfold room_put_state. simpl.
    destruct (put_refused (world st) (cfg_space_id config) k) as [e|]; simpl.
    + destruct (cfg_ignore_errors config); [|reflexivity].
      unfold bind, print, emit. simpl. rewrite <- !app_assoc. reflexivity.
    + unfold bind, print, emit. simpl. rewrite <- !app_assoc. reflexivity.
Qed.

(** C3: a child entry of another type, or with a state key that is
    [None] or empty, is passed over: the state after it is the state
    before it (no request sent, nothing printed), and the loop goes on
    with the next entry. *)
Theorem skipped_entry_costs_nothing config room rest (st : State) :
  type room <> "m.space.child" \/ state_key room = None \/ state_key room = Some "" ->
  process_room config room st = (Ok tt, st) /\
  for_each (process_room config) (room :: rest) st
  = for_each (process_room config) rest st.
Proof.
  intros H. apply room_key_None in H.
  assert (Hp := process_room_skip config room st H). split; [exact Hp|].
  simpl. unfold bind. rewrite Hp. reflexivity.
Qed.

Lemma process_room_levels_error config room k members all_servers e (st : State) :
  room_key room = Some k ->
  joined (world st) k = JoinedMembersResponse members ->
  comprehension (fun member => get_user_homeserver (user_id member)) members
  = Ok all_servers ->
  room_state (world st) k "m.room.power_levels" "" = RoomGetStateEventError e ->
  process_room config room st
  = (Raise (AttributeError "content"),
     log [Call (ReqJoinedMembers k) true;
          Call (ReqGetStateEvent k "m.room.power_levels" "") false] st).
Proof.
  intros Hk Hj Hc Hs. rewrite (process_room_eq _ _ _ _ Hk), Hj, Hc, Hs. reflexivity.
Qed.

(** C9: a failed hierarchy fetch raises [ErrorGettingSpace] whatever the
    configuration; a failed membership fetch, and a refused state
    update, end the run with an exception unless [ignore_errors] is
    set, in which case the failure is printed and the loop goes on with
    the next entry. *)
Theorem error_handling config room k rest (st : State) :
  (forall e,
      hierarchy (world st) (cfg_space_id config) = SpaceGetHierarchyError e ->
      update_via config st
      = (Raise (ErrorGettingSpace e),
         log [Call (ReqHierarchy (cfg_space_id config)) false] st))
  /\ (forall e,
        room_key room = Some k ->
        joined (world st) k = JoinedMembersError e ->
        for_each (process_room config) (room :: rest) st
        = if cfg_ignore_errors config
          then for_each (process_room config) rest
                 (log [Call (ReqJoinedMembers k) false;
                       Print ("Skipping room " +:+ k +:+ ": " +:+ err_str e)] st)
          else (Raise (RaisedResponse e), log [Call (ReqJoinedMembers k) false] st))
  /\ (forall e members power_levels servers b,
        room_key room = Some k ->
        joined (world st) k = JoinedMembersResponse members ->
        room_state (world st) k "m.room.power_levels" ""
        = RoomGetStateEventResponse power_levels ->
        room_servers config members power_levels = Ok servers ->
        set_equal (via (content room)) servers = false ->
        suggested (content room) = Some b ->
        cfg_dry_run config = false ->
        put_refused (world st) (cfg_space_id config) k = Some e ->
        let servers' := fst (shuffled config servers (random st)) in
        let put :=
          Call (ReqPutState (cfg_space_id config) "m.space.child"
                            {| suggested := Some b; via := servers' |} k) false in
        let st' :=
          {| world := world st;
             random := snd (shuffled config servers (random st));
             trace := trace st
                      ++ [Call (ReqJoinedMembers k) true;
                          Call (ReqGetStateEvent k "m.room.power_levels" "") true;
                          put] |} in
        for_each (process_room config) (room :: rest) st
        = if cfg_ignore_errors config
          then for_each (process_room config) rest
                 (log [Print ("Could not update room " +:+ k +:+ ", skipping: "
                              +:+ err_str e);
                       Print ("Before: " +:+ join ", " (via (content room)));
                       Print ("After: " +:+ join ", " servers')] st')
          else (Raise (ErrorUpdatingState e), st')).
Proof.
  split; [|split].
  - intros e He. unfold update_via, bind, space_get_hierarchy, bind, emit, ret. simpl.
    rewrite He. reflexivity.
  - intros e Hk Hj. simpl. unfold bind at 1.
    rewrite (process_room_eq _ _ _ _ Hk), Hj.
    destruct (cfg_ignore_errors config); reflexivity.
  - intros e members power_levels servers b Hk Hj Hs Hrs Hne Hb Hdry Hput. simpl.
    unfold bind at 1.
    rewrite (process_room_eq _ _ _ _ Hk), Hj.
    assert (Hc : exists all_servers,
               comprehension (fun member => get_user_homeserver (user_id member)) members
               = Ok all_servers).
    { unfold room_servers in Hrs. destruct (comprehension _ members); [eauto|discriminate]. }
    destruct Hc as [all_servers ->]. rewrite Hs, Hrs, apply_update_eq, Hne. simpl.
    rewrite Hb, Hdry, Hput.
    destruct (cfg_ignore_errors config); unfold log; simpl;
      rewrite <- ?app_assoc; reflexivity.
Qed.

(** ** The selected servers *)

Lemma list_of_set_to_set l : list_to_set (list_of_set l) =@{gset string} list_to_set l.
Proof. apply set_eq. intros x. rewrite !elem_of_list_to_set. apply list_of_set_elem. Qed.

Lemma list_of_set_length l : length (list_of_set l) = size (list_to_set l : gset string).
Proof.
  rewrite <- list_of_set_to_set. symmetry. apply size_list_to_set, list_of_set_NoDup.
Qed.

Lemma merge_servers_set config all_servers common highest :
  list_to_set (merge_servers config all_servers common highest)
  = merge_set config all_servers common highest.
Proof.
  unfold merge_servers, merge_set. cbv zeta. rewrite list_of_set_length.
  destruct (_ && _); rewrite list_of_set_to_set; [|reflexivity].
  rewrite list_to_set_app_L, list_of_set_to_set. reflexivity.
Qed.

Lemma merge_servers_NoDup config all_servers common highest :
  NoDup (merge_servers config all_servers common highest).
Proof. unfold merge_servers. cbv zeta. destruct (_ && _); apply list_of_set_NoDup. Qed.

Lemma merge_servers_length config all_servers common highest :
  length (merge_servers config all_servers common highest)
  = size (merge_set config all_servers common highest).
Proof.
  rewrite <- merge_servers_set. symmetry.
  apply size_list_to_set, merge_servers_NoDup.
Qed.

Lemma merge_set_hosted config all_servers common highest s :
  (forall x, x ∈ common -> x ∈ all_servers) ->
  (forall x, x ∈ highest -> x ∈ all_servers) ->
  s ∈ merge_set config all_servers common highest -> s ∈ all_servers.
Proof.
  intros Hc Hh. unfold merge_set. cbv zeta.
  assert (Hprior : forall x,
             x ∈ (list_to_set
                    (List.filter (fun server => bool_decide (server ∈ all_servers))
                                 (cfg_additional_servers config) ++ common ++ highest)
                  : gset string) -> x ∈ all_servers).
  { intros x Hx. apply elem_of_list_to_set in Hx.
    apply elem_of_app in Hx as [Hx|Hx].
    - apply list_elem_of_In, filter_In in Hx as [_ Hx].
      apply bool_decide_eq_true in Hx. exact Hx.
    - apply elem_of_app in Hx as [Hx|Hx]; auto. }
  destruct (_ && _); [|apply Hprior].
  intros Hs. apply elem_of_union in Hs as [Hs|Hs]; [|apply Hprior; exact Hs].
  apply elem_of_list_to_set, most_common_servers_elem in Hs. tauto.
Qed.

Lemma member_levels_fold_key power_levels members : forall acc k,
  k ∈ (fold_left (fun d member =>
                    dict_set (user_id member)
                             (member_level power_levels (user_id member)) d)
                 members acc).*1 ->
  k ∈ acc.*1 \/ exists member, member ∈ members /\ user_id member = k.
Proof.
  induction members as [|m members IH]; intros acc k; simpl; [auto|].
  intros H. apply IH in H as [H|(m' & Hin & Hm')].
  - apply dict_set_key in H as [->|H]; [|auto].
    right. exists m. split; [left|reflexivity].
  - right. exists m'. split; [right; exact Hin|exact Hm'].
Qed.

Lemma get_highest_level_members_key member_levels threshold members k :
  get_highest_level_members member_levels threshold = Ok members ->
  k ∈ members -> k ∈ member_levels.*1.
Proof.
  unfold get_highest_level_members.
  destruct (py_max _) as [highest|]; simpl; [|discriminate].
  destruct (highest <=? threshold); intros [= <-] Hk; [inversion Hk|].
  apply list_elem_of_fmap in Hk as (kv & -> & Hk).
  apply list_elem_of_In, filter_In in Hk as [Hk _]. apply list_elem_of_In in Hk.
  apply list_elem_of_fmap. exists kv. auto.
Qed.

Lemma room_servers_inv config members power_levels servers :
  room_servers config members power_levels = Ok servers ->
  exists all_servers highest_level_members highest_level_servers,
    comprehension (fun member => get_user_homeserver (user_id member)) members
    = Ok all_servers /\
    get_highest_level_members (member_levels_of members power_levels) 50
    = Ok highest_level_members /\
    comprehension get_user_homeserver highest_level_members = Ok highest_level_servers /\
    servers = merge_servers config all_servers
                (most_common_servers all_servers (cfg_most_common_servers config)
                                     (cfg_min_users_per_server config))
                highest_level_servers.
Proof.
  unfold room_servers.
  destruct (comprehension _ members) as [all_servers|]; simpl; [|discriminate].
  destruct (get_highest_level_members _ 50) as [hm|]; simpl; [|discriminate].
  destruct (comprehension get_user_homeserver hm) as [hs|] eqn:Ehs; simpl; [|discriminate].
  intros [= <-]. exists all_servers, hm, hs. repeat split; [exact Ehs].
Qed.

Lemma room_servers_hosted config members power_levels servers s :
  room_servers config members power_levels = Ok servers ->
  s ∈ servers ->
  exists member, member ∈ members /\ get_user_homeserver (user_id member) = Ok s.
Proof.
  intros H Hs. apply room_servers_inv in H as (all_servers & hm & hs & Hall & Hhm & Hhs & ->).
  apply (comprehension_elem _ _ _ Hall).
  apply (elem_of_list_to_set (C := gset string)) in Hs.
  rewrite merge_servers_set in Hs. revert Hs. apply merge_set_hosted.
  - intros x Hx. apply most_common_servers_elem in Hx. tauto.
  - intros x Hx. apply (comprehension_elem _ _ _ Hhs) in Hx as (uid & Huid & Hx).
    apply (get_highest_level_members_key _ _ _ _ Hhm) in Huid.
    apply member_levels_fold_key in Huid as [Huid|(m & Hm & <-)]; [inversion Huid|].
    apply (comprehension_elem _ _ _ Hall). eauto.
Qed.

(** ** Requests sent while one entry is processed *)

Lemma trace_tail (st : State) (evs0 evs : list event) :
  trace st ++ evs0 = trace st ++ evs -> evs = evs0.
Proof. intros H. apply app_inv_head in H. congruence. Qed.

(** An event that differs from every element of an explicit list is not
    in it; a property that computes on every element holds for all. *)
Ltac not_listed H :=
  repeat (apply elem_of_cons in H as [H|H]; [discriminate H|]); inversion H.

Ltac all_listed H :=
  repeat (apply elem_of_cons in H as [->|H]; [reflexivity|]); inversion H.

Lemma put_in_events k sid0 ty0 c0 ok0 (evs' : list event) sid ty c key ok :
  Call (ReqPutState sid ty c key) ok
  ∈ Call (ReqJoinedMembers k) true
    :: Call (ReqGetStateEvent k "m.room.power_levels" "") true
    :: Call (ReqPutState sid0 ty0 c0 k) ok0 :: evs' ->
  (forall e, e ∈ evs' -> is_put e = false) ->
  sid = sid0 /\ ty = ty0 /\ c = c0 /\ key = k /\ ok = ok0.
Proof.
  intros H Hevs'.
  apply elem_of_cons in H as [H|H]; [discriminate|].
  apply elem_of_cons in H as [H|H]; [discriminate|].
  apply elem_of_cons in H as [H|H].
  - injection H as -> -> -> -> ->. repeat split.
  - apply Hevs' in H. discriminate.
Qed.

Lemma process_room_put_inv config room (st : State) r st' evs :
  process_room config room st = (r, st') ->
  trace st' = trace st ++ evs ->
  (forallb (fun e => negb (is_put e)) evs = true -> world st' = world st) /\
  forall sid ty c key ok,
    Call (ReqPutState sid ty c key) ok ∈ evs ->
    cfg_dry_run config = false /\ sid = cfg_space_id config /\ ty = "m.space.child" /\
    exists members power_levels servers,
      room_key room = Some key /\
      joined (world st) key = JoinedMembersResponse members /\
      room_state (world st) key "m.room.power_levels" ""
      = RoomGetStateEventResponse power_levels /\
      room_servers config members power_levels = Ok servers /\
      via c ≡ₚ servers /\
      set_equal (via (content room)) servers = false.
Proof.
  intros Hrun Htr.
  destruct (room_key room) as [k|] eqn:Hk.
  2:{ rewrite (process_room_skip _ _ _ Hk) in Hrun. injection Hrun as <- <-.
      rewrite <- (app_nil_r (trace st)) in Htr at 1. apply trace_tail in Htr. subst evs.
      split; [reflexivity|]. intros sid ty c key ok H. inversion H. }
  rewrite (process_room_eq _ _ _ _ Hk) in Hrun.
  assert (Hperm : forall servers,
             fst (shuffled config servers (random st)) ≡ₚ servers).
  { intros servers. unfold shuffled. destruct (cfg_shuffle_order config);
      [apply shuffle_perm|reflexivity]. }
  destruct (joined (world st) k) as [members|e] eqn:Hj.
  - destruct (comprehension _ members) as [all_servers|e] eqn:Hall.
    + destruct (room_state (world st) k "m.room.power_levels" "") as [pl|e] eqn:Hs.
      * destruct (room_servers config members pl) as [servers|e] eqn:Hrs.
        -- rewrite apply_update_eq in Hrun.
           destruct (set_equal (via (content room)) servers) eqn:Heq.
           ++ injection Hrun as <- <-. simpl in Htr. rewrite <- app_assoc in Htr.
              apply trace_tail in Htr. subst evs. split; [reflexivity|].
              intros sid ty c key ok H. not_listed H.
           ++ cbv zeta in Hrun.
              destruct (suggested (content room)) as [b|].
              2:{ injection Hrun as <- <-. simpl in Htr.
                  rewrite <- (app_nil_r (trace st ++ _)), <- app_assoc in Htr.
                  apply trace_tail in Htr. subst evs. split; [reflexivity|].
                  intros sid ty c key ok H. not_listed H. }
              destruct (cfg_dry_run config) eqn:Hdry.
              { injection Hrun as <- <-. simpl in Htr. rewrite <- app_assoc in Htr.
                apply trace_tail in Htr. subst evs. split; [reflexivity|].
                intros sid ty c key ok H. not_listed H. }
              simpl in Hrun.
              assert (Hfound : forall sid ty c key,
                         sid = cfg_space_id config ->
                         ty = "m.space.child" ->
                         c = {| suggested := Some b;
                                via := fst (shuffled config servers (random st)) |} ->
                         key = k ->
                         cfg_dry_run config = false /\ sid = cfg_space_id config /\
                         ty = "m.space.child" /\
                         exists members power_levels servers,
                           room_key room = Some key /\
                           joined (world st) key = JoinedMembersResponse members /\
                           room_state (world st) key "m.room.power_levels" ""
                           = RoomGetStateEventResponse power_levels /\
                           room_servers config members power_levels = Ok servers /\
                           via c ≡ₚ servers /\
                           set_equal (via (content room)) servers = false).
              { intros sid ty c key -> -> -> ->. repeat split; [exact Hdry|].
                exists members, pl, servers. repeat split; try assumption.
                simpl. apply Hperm. }
              destruct (put_refused (world st) (cfg_space_id config) k) as [e|].
              ** destruct (cfg_ignore_errors config);
                   injection Hrun as <- <-; simpl in Htr; rewrite <- app_assoc in Htr;
                   apply trace_tail in Htr; subst evs; (split; [reflexivity|]);
                   intros sid ty c key ok H;
                   destruct (put_in_events _ _ _ _ _ _ _ _ _ _ _ H) as (-> & -> & -> & -> & _);
                   try (generalize (Hfound _ _ _ _ eq_refl eq_refl eq_refl eq_refl);
                        rewrite Hdry, Hk; exact (fun HF => HF));
                   intros e0 He0; all_listed He0.
              ** injection Hrun as <- <-; simpl in Htr; rewrite <- app_assoc in Htr;
                   apply trace_tail in Htr; subst evs.
                 split; [simpl; discriminate|].
                 intros sid ty c key ok H.
                 destruct (put_in_events _ _ _ _ _ _ _ _ _ _ _ H) as (-> & -> & -> & -> & _);
                   try (generalize (Hfound _ _ _ _ eq_refl eq_refl eq_refl eq_refl);
                        rewrite Hdry, Hk; exact (fun HF => HF)).
                 intros e0 He0. all_listed He0.
        -- injection Hrun as <- <-. simpl in Htr.
           apply trace_tail in Htr. subst evs. split; [reflexivity|].
           intros sid ty c key ok H. not_listed H.
      * injection Hrun as <- <-. simpl in Htr.
        apply trace_tail in Htr. subst evs. split; [reflexivity|].
        intros sid ty c key ok H. not_listed H.
    + injection Hrun as <- <-. simpl in Htr.
      apply trace_tail in Htr. subst evs. split; [reflexivity|].
      intros sid ty c key ok H. not_listed H.
  - destruct (cfg_ignore_errors config); injection Hrun as <- <-; simpl in Htr;
      apply trace_tail in Htr; subst evs; (split; [reflexivity|]);
      intros sid ty c key ok H; not_listed H.
Qed.

Lemma set_equal_true a b :
  set_equal a b = true <-> list_to_set a =@{gset string} list_to_set b.
Proof. unfold set_equal. apply bool_decide_eq_true. Qed.

Lemma set_equal_false a b :
  set_equal a b = false <-> list_to_set a <> (list_to_set b : gset string).
Proof. unfold set_equal. apply bool_decide_eq_false. Qed.

Lemma process_room_matching config room k members power_levels servers (st : State) :
  room_key room = Some k ->
  joined (world st) k = JoinedMembersResponse members ->
  room_state (world st) k "m.room.power_levels" ""
  = RoomGetStateEventResponse power_levels ->
  room_servers config members power_levels = Ok servers ->
  set_equal (via (content room)) servers = true ->
  process_room config room st = (Ok tt, log (already_matching room) st).
Proof.
  intros Hk Hj Hs Hrs Heq.
  rewrite (process_room_eq _ _ _ _ Hk), Hj.
  destruct (room_servers_inv _ _ _ _ Hrs) as (all_servers & _ & _ & -> & _).
  rewrite Hs, Hrs, apply_update_eq, Heq, log_log.
  unfold already_matching. rewrite Hk. reflexivity.
Qed.

(** C4: when the computed servers and the published `via` list are
    equal as sets, the room is reported as already matching and nothing
    is written (the homeserver is as before, and no update request is
    among the events); whenever an update request is sent for an entry,
    its list is a reordering of the computed servers and these differ,
    as a set, from the published list. *)
Theorem via_written_only_on_change config room (st : State) :
  (forall k members power_levels servers,
      room_key room = Some k ->
      joined (world st) k = JoinedMembersResponse members ->
      room_state (world st) k "m.room.power_levels" ""
      = RoomGetStateEventResponse power_levels ->
      room_servers config members power_levels = Ok servers ->
      list_to_set (via (content room)) =@{gset string} list_to_set servers ->
      process_room config room st = (Ok tt, log (already_matching room) st) /\
      forallb (fun e => negb (is_put e)) (already_matching room) = true)
  /\ (forall r st' evs sid ty c key ok,
        process_room config room st = (r, st') ->
        trace st' = trace st ++ evs ->
        Call (ReqPutState sid ty c key) ok ∈ evs ->
        exists members power_levels servers,
          room_key room = Some key /\
          joined (world st) key = JoinedMembersResponse members /\
          room_state (world st) key "m.room.power_levels" ""
          = RoomGetStateEventResponse power_levels /\
          room_servers config members power_levels = Ok servers /\
          via c ≡ₚ servers /\
          list_to_set (via (content room)) <> (list_to_set servers : gset string)).
Proof.
  split.
  - intros k members power_levels servers Hk Hj Hs Hrs Heq. split.
    + eapply process_room_matching; eauto. apply set_equal_true. exact Heq.
    + unfold already_matching. rewrite Hk. reflexivity.
  - intros r st' evs sid ty c key ok Hrun Htr Hput.
    destruct (process_room_put_inv _ _ _ _ _ _ Hrun Htr) as [_ Hinv].
    destruct (Hinv _ _ _ _ _ Hput)
      as (_ & _ & _ & members & pl & servers & Hk & Hj & Hs & Hrs & Hperm & Hne).
    exists members, pl, servers. repeat split; try assumption.
    apply set_equal_false. exact Hne.
Qed.

(** C7: an allow-list entry on which no current member of the room is
    hosted is not among the servers computed for the room, with or
    without the relaxed re-run, and is in no list sent in an update
    request for the room. *)
Theorem absent_allow_list_server_excluded config (s : string) :
  s ∈ cfg_additional_servers config ->
  (forall members power_levels servers,
      room_servers config members power_levels = Ok servers ->
      (forall member, member ∈ members -> get_user_homeserver (user_id member) <> Ok s) ->
      s ∉ servers)
  /\ (forall room (st : State) r st' evs sid ty c key ok members,
        process_room config room st = (r, st') ->
        trace st' = trace st ++ evs ->
        Call (ReqPutState sid ty c key) ok ∈ evs ->
        joined (world st) key = JoinedMembersResponse members ->
        (forall member, member ∈ members ->
                        get_user_homeserver (user_id member) <> Ok s) ->
        s ∉ via c).
Proof.
  intros _. split.
  - intros members power_levels servers Hrs Hno Hin.
    destruct (room_servers_hosted _ _ _ _ _ Hrs Hin) as (member & Hm & Hs).
    exact (Hno member Hm Hs).
  - intros room st r st' evs sid ty c key ok members Hrun Htr Hput Hj Hno Hin.
    destruct (process_room_put_inv _ _ _ _ _ _ Hrun Htr) as [_ Hinv].
    destruct (Hinv _ _ _ _ _ Hput)
      as (_ & _ & _ & members' & pl & servers & Hk & Hj' & Hs & Hrs & Hperm & Hne).
    rewrite Hj in Hj'. injection Hj' as <-.
    rewrite Hperm in Hin.
    destruct (room_servers_hosted _ _ _ _ _ Hrs Hin) as (member & Hm & Hs').
    exact (Hno member Hm Hs').
Qed.

(** C8: when the merged candidates are fewer than the optimum and the
    relaxation flag is set, the result is the enumeration of the relaxed
    re-run (count [max] of the two configured numbers, threshold 1)
    together with the prior candidates; every prior candidate is in it;
    and it can still be shorter than the optimum. *)
Theorem relaxed_rerun_tops_up config (all_servers common_servers highest : list string) :
  let prior :=
    list_of_set
      (List.filter (fun server => bool_decide (server ∈ all_servers))
                   (cfg_additional_servers config)
       ++ common_servers ++ highest) in
  let rerun :=
    most_common_servers all_servers
      (Z.max (cfg_most_common_servers config) (cfg_optimal_via_servers config)) 1 in
  (Z.of_nat (length prior) < cfg_optimal_via_servers config ->
   cfg_ignore_requirementrs_to_reach_optimum config = true ->
   merge_servers config all_servers common_servers highest = list_of_set (rerun ++ prior)
   /\ (forall s, s ∈ merge_servers config all_servers common_servers highest
                 <-> s ∈ rerun \/ s ∈ prior)
   /\ prior ⊆ merge_servers config all_servers common_servers highest)
  /\ (exists config' all_servers',
         cfg_ignore_requirementrs_to_reach_optimum config' = true /\
         Z.of_nat (length (merge_servers config' all_servers' [] []))
         < cfg_optimal_via_servers config').
Proof.
  intros prior rerun. split.
  - intros Hlt Hflag.
    assert (Heq : merge_servers config all_servers common_servers highest
                  = list_of_set (rerun ++ prior)).
    { unfold merge_servers. cbv zeta. fold prior. rewrite Hflag.
      apply Z.ltb_lt in Hlt. rewrite Hlt. reflexivity. }
    rewrite Heq. split; [reflexivity|]. split.
    + intros s. rewrite list_of_set_elem, elem_of_app. reflexivity.
    + intros s Hs. apply list_of_set_elem, elem_of_app. right. exact Hs.
  - exists (example_config false false), ["a.org"; "a.org"]. split; [reflexivity|].
    rewrite merge_servers_length. vm_compute. reflexivity.
Qed.

(** ** Two runs in a row *)

Lemma for_each_settled config rooms : forall st : State,
  (forall room, room ∈ rooms -> settled config (world st) room) ->
  for_each (process_room config) rooms st
  = (Ok tt, log (flat_map already_matching rooms) st).
Proof.
  induction rooms as [|room rooms IH]; intros st Hall; simpl.
  - rewrite log_nil. reflexivity.
  - assert (Hroom : process_room config room st = (Ok tt, log (already_matching room) st)).
    { assert (Hs := Hall room (list_elem_of_here _ _)). unfold settled in Hs.
      destruct (room_key room) as [k|] eqn:Hk.
      - destruct Hs as (members & pl & servers & Hj & Hst & Hrs & Heq).
        eapply process_room_matching; eauto.
      - unfold already_matching. rewrite Hk, log_nil. apply process_room_skip. exact Hk. }
    unfold bind. rewrite Hroom, IH, log_log; [reflexivity|].
    intros room' Hin. apply Hall. right. exact Hin.
Qed.

Lemma already_matching_no_put rooms :
  forallb (fun e => negb (is_put e)) (flat_map already_matching rooms) = true.
Proof.
  induction rooms as [|room rooms IH]; simpl; [reflexivity|].
  rewrite forallb_app, IH, andb_true_r.
  unfold already_matching. destruct (room_key room); reflexivity.
Qed.

Lemma process_room_trace config room (st : State) r st' :
  process_room config room st = (r, st') -> exists evs, trace st' = trace st ++ evs.
Proof.
  intros Hrun. destruct (room_key room) as [k|] eqn:Hk.
  2:{ rewrite (process_room_skip _ _ _ Hk) in Hrun. injection Hrun as <- <-.
      exists []. rewrite app_nil_r. reflexivity. }
  rewrite (process_room_eq _ _ _ _ Hk) in Hrun.
  repeat match type of Hrun with
         | context [match ?x with _ => _ end] => destruct x
         | context [apply_update _ _ _ _ _] => rewrite apply_update_eq in Hrun; cbv zeta in Hrun
         end;
    injection Hrun as <- <-; simpl; rewrite <- ?app_assoc;
    eexists; reflexivity.
Qed.

Lemma for_each_trace config rooms : forall (st : State) r st',
  for_each (process_room config) rooms st = (r, st') ->
  exists evs, trace st' = trace st ++ evs.
Proof.
  induction rooms as [|room rooms IH]; intros st r st' Hrun; simpl in Hrun.
  - injection Hrun as <- <-. exists []. rewrite app_nil_r. reflexivity.
  - unfold bind in Hrun. destruct (process_room config room st) as [[[]|e] st1] eqn:H1.
    + apply process_room_trace in H1 as [evs1 H1].
      apply IH in Hrun as [evs2 H2]. exists (evs1 ++ evs2).
      rewrite H2, H1, app_assoc. reflexivity.
    + injection Hrun as <- <-. eapply process_room_trace. exact H1.
Qed.

Lemma process_room_world config room (st : State) r st' :
  process_room config room st = (r, st') ->
  world st' = world st
  \/ exists k c,
       room_key room = Some k /\
       world st' = put_world (cfg_space_id config) "m.space.child" k c (world st).
Proof.
  intros Hrun. destruct (room_key room) as [k|] eqn:Hk.
  2:{ rewrite (process_room_skip _ _ _ Hk) in Hrun. injection Hrun as <- <-. auto. }
  rewrite (process_room_eq _ _ _ _ Hk) in Hrun.
  repeat match type of Hrun with
         | context [match ?x with _ => _ end] => destruct x
         | context [apply_update _ _ _ _ _] => rewrite apply_update_eq in Hrun; cbv zeta in Hrun
         end;
    injection Hrun as <- <-; simpl;
    first [left; reflexivity | right; eexists _, _; split; reflexivity].
Qed.

Lemma for_each_entries config rooms : forall (st : State) r st',
  for_each (process_room config) rooms st = (r, st') ->
  (forall room, room ∈ rooms ->
                entry_id room
                ∈ map entry_id (published_children (world st) (cfg_space_id config))) ->
  map entry_id (published_children (world st') (cfg_space_id config))
  = map entry_id (published_children (world st) (cfg_space_id config)).
Proof.
  induction rooms as [|room rooms IH]; intros st r st' Hrun Hin; simpl in Hrun.
  - injection Hrun as <- <-. reflexivity.
  - unfold bind in Hrun.
    destruct (process_room config room st) as [[[]|e] st_mid] eqn:Hroom.
    + assert (Hmid : map entry_id (published_children (world st_mid) (cfg_space_id config))
                     = map entry_id (published_children (world st) (cfg_space_id config))).
      { destruct (process_room_world _ _ _ _ _ Hroom) as [->|(k & c & Hk & ->)];
          [reflexivity|].
        assert (Hr := Hin room (list_elem_of_here _ _)).
        apply list_elem_of_fmap in Hr as (e & He & Hpub).
        eapply published_put_entries; [exact Hpub|].
        rewrite <- (is_event_entry_id _ _ _ _ He). apply room_key_is_event. exact Hk. }
      rewrite <- Hmid. eapply IH; [exact Hrun|].
      intros room' Hin'. rewrite Hmid. apply Hin. right. exact Hin'.
    + injection Hrun as <- <-.
      destruct (process_room_world _ _ _ _ _ Hroom) as [->|(k & c & Hk & ->)];
        [reflexivity|].
      assert (Hr := Hin room (list_elem_of_here _ _)).
      apply list_elem_of_fmap in Hr as (e0 & He & Hpub).
      eapply published_put_entries; [exact Hpub|].
      rewrite <- (is_event_entry_id _ _ _ _ He). apply room_key_is_event. exact Hk.
Qed.

End Run.

(** ** Two runs in a row, each in its own interpreter *)

Section Idempotence.
Variables R1 R2 : Runtime.

Lemma room_servers_runtime config members power_levels servers :
  @room_servers R1 config members power_levels = Ok servers ->
  exists servers2,
    @room_servers R2 config members power_levels = Ok servers2 /\
    list_to_set servers =@{gset string} list_to_set servers2.
Proof.
  intros H. apply room_servers_inv in H as (all_servers & hm & hs & Hall & Hhm & Hhs & ->).
  unfold room_servers. rewrite Hall. simpl. rewrite Hhm. simpl. rewrite Hhs. simpl.
  eexists. split; [reflexivity|].
  rewrite (@merge_servers_set R1), (@merge_servers_set R2). reflexivity.
Qed.

Lemma settled_put_world (R : Runtime) config sid ty k c w e :
  @settled R config (put_world sid ty k c w) e = @settled R config w e.
Proof. reflexivity. Qed.

(** A call that failed cannot be part of a trace without failures. *)
Ltac failed_call Hrun Hok :=
  injection Hrun as <-; simpl in Hok; rewrite !forallb_app in Hok; simpl in Hok;
  rewrite ?andb_false_r in Hok; discriminate Hok.

Lemma process_room_settles config room (st st' : @State R1) :
  cfg_dry_run config = false ->
  @process_room R1 config room st = (Ok tt, st') ->
  forallb event_ok (trace st') = true ->
  (world st' = world st /\ @settled R2 config (world st) room)
  \/ (exists k c,
        room_key room = Some k /\
        world st' = put_world (cfg_space_id config) "m.space.child" k c (world st) /\
        forall e, room_key e = Some k -> content e = c ->
                  @settled R2 config (world st) e).
Proof.
  intros Hlive Hrun Hok.
  destruct (room_key room) as [k|] eqn:Hk.
  2:{ rewrite (process_room_skip _ _ _ Hk) in Hrun. injection Hrun as <-.
      left. split; [reflexivity|]. unfold settled. rewrite Hk. exact I. }
  rewrite (process_room_eq _ _ _ _ Hk) in Hrun.
  destruct (joined (world st) k) as [members|err] eqn:Hj.
  2:{ destruct (cfg_ignore_errors config); [failed_call Hrun Hok|discriminate]. }
  destruct (comprehension _ members) as [all_servers|]; [|discriminate].
  destruct (room_state (world st) k "m.room.power_levels" "") as [pl|] eqn:Hs;
    [|discriminate].
  destruct (@room_servers R1 config members pl) as [servers|] eqn:Hrs; [|discriminate].
  destruct (room_servers_runtime _ _ _ _ Hrs) as (servers2 & Hrs2 & Hsets).
  rewrite apply_update_eq in Hrun.
  destruct (set_equal (via (content room)) servers) eqn:Heq.
  - injection Hrun as <-. left. split; [reflexivity|].
    unfold settled. rewrite Hk. exists members, pl, servers2.
    repeat split; try assumption.
    apply set_equal_true. apply set_equal_true in Heq. congruence.
  - cbv zeta in Hrun. destruct (suggested (content room)) as [b|]; [|discriminate].
    rewrite Hlive in Hrun. simpl in Hrun.
    destruct (put_refused (world st) (cfg_space_id config) k) as [err|].
    { destruct (cfg_ignore_errors config); [failed_call Hrun Hok|discriminate]. }
    injection Hrun as <-. right. eexists k, _. split; [reflexivity|].
    split; [reflexivity|]. intros e Hke Hce.
    unfold settled. rewrite Hke. exists members, pl, servers2.
    repeat split; try assumption.
    apply set_equal_true. rewrite Hce. simpl. rewrite <- Hsets.
    apply list_to_set_perm_L.
    unfold shuffled. destruct (cfg_shuffle_order config); [apply shuffle_perm|reflexivity].
Qed.

Lemma for_each_settles config (snap rooms : list ChildEvent) :
  forall (st st' : @State R1) (done : list ChildEvent),
  cfg_dry_run config = false ->
  for_each (@process_room R1 config) rooms st = (Ok tt, st') ->
  forallb event_ok (trace st') = true ->
  (forall e, e ∈ published_children (world st) (cfg_space_id config) ->
             @settled R2 config (world st) e \/ e ∈ snap) ->
  (forall e, e ∈ published_children (world st) (cfg_space_id config) ->
             e ∈ done -> @settled R2 config (world st) e) ->
  (forall e, e ∈ published_children (world st') (cfg_space_id config) ->
             @settled R2 config (world st') e \/ e ∈ snap) /\
  (forall e, e ∈ published_children (world st') (cfg_space_id config) ->
             e ∈ done ++ rooms -> @settled R2 config (world st') e) /\
  (forall space rest,
      hierarchy (world st) (cfg_space_id config)
      = SpaceGetHierarchyResponse (space :: rest) ->
      exists space',
        hierarchy (world st') (cfg_space_id config)
        = SpaceGetHierarchyResponse (space' :: rest)).
Proof.
  induction rooms as [|room rooms IH]; intros st st' done Hlive Hrun Hok P1 P2.
  - simpl in Hrun. injection Hrun as <-. rewrite app_nil_r. eauto.
  - simpl in Hrun. unfold bind in Hrun.
    destruct (@process_room R1 config room st) as [[[]|err] st_mid] eqn:Hroom;
      [|discriminate].
    assert (Hok_mid : forallb event_ok (trace st_mid) = true).
    { destruct (for_each_trace _ _ _ _ _ Hrun) as [evs Hevs].
      rewrite Hevs in Hok. eapply forallb_ok_prefix. exact Hok. }
    assert (Hstep : (forall e, e ∈ published_children (world st_mid) (cfg_space_id config) ->
                               @settled R2 config (world st_mid) e \/ e ∈ snap) /\
                    (forall e, e ∈ published_children (world st_mid) (cfg_space_id config) ->
                               e ∈ done ++ [room] ->
                               @settled R2 config (world st_mid) e) /\
                    (forall space rest,
                        hierarchy (world st) (cfg_space_id config)
                        = SpaceGetHierarchyResponse (space :: rest) ->
                        exists space',
                          hierarchy (world st_mid) (cfg_space_id config)
                          = SpaceGetHierarchyResponse (space' :: rest))).
    { destruct (process_room_settles _ _ _ _ Hlive Hroom Hok_mid)
        as [[Hw Hset]|(k & c & Hk & Hw & Hc)]; rewrite Hw.
      - split; [exact P1|]. split; [|eauto].
        intros e He Hin. apply elem_of_app in Hin as [Hin|Hin]; [auto|].
        apply list_elem_of_singleton in Hin. subst e. exact Hset.
      - destruct (room_key_Some _ _ Hk) as (_ & _ & Hne).
        split; [|split].
        + intros e He. rewrite settled_put_world.
          apply elem_of_published_put in He as [[He _]|(Hty & Hsk & Hce)]; [auto|].
          left. apply Hc; [|exact Hce]. apply room_key_intro; assumption.
        + intros e He Hin. rewrite settled_put_world.
          apply elem_of_published_put in He as [[He Hev]|(Hty & Hsk & Hce)].
          * apply elem_of_app in Hin as [Hin|Hin]; [auto|].
            apply list_elem_of_singleton in Hin. subst e.
            rewrite (room_key_is_event _ _ Hk) in Hev. discriminate.
          * apply Hc; [|exact Hce]. apply room_key_intro; assumption.
        + intros space rest Hh. eapply hierarchy_put. exact Hh. }
    destruct Hstep as (P1' & P2' & Hh').
    destruct (IH st_mid st' (done ++ [room]) Hlive Hrun Hok P1' P2') as (Q1 & Q2 & Hh'').
    split; [exact Q1|]. split.
    + rewrite <- app_assoc in Q2. exact Q2.
    + intros space rest Hh. destruct (Hh' _ _ Hh) as [space' Hmid]. eauto.
Qed.

(** C1: after a live run that ended without an exception and in which
    no client call failed, a second run against the homeserver as the
    first run left it (memberships and power levels are not touched by
    the run) fetches the hierarchy, finds every child entry it does not
    skip already matching, prints that line for each of them and sends
    no update request; the homeserver and the generator are as before.
    The two runs may use different set orders and shuffles: for every
    published entry the recomputed servers equal the published list as
    a set.  The entries the second run sees are those of the first run,
    in the same order, with their type and state key. *)
Theorem update_via_idempotent config (st st1 : @State R1) (st2 : @State R2) :
  cfg_dry_run config = false ->
  @update_via R1 config st = (Ok tt, st1) ->
  forallb event_ok (trace st1) = true ->
  world st2 = world st1 ->
  let children := published_children (world st1) (cfg_space_id config) in
  @update_via R2 config st2
  = (Ok tt,
     log (Call (ReqHierarchy (cfg_space_id config)) true
          :: flat_map already_matching children) st2)
  /\ forallb (fun e => negb (is_put e)) (flat_map already_matching children) = true
  /\ (forall room, room ∈ children -> @settled R2 config (world st1) room)
  /\ map entry_id children
     = map entry_id (published_children (world st) (cfg_space_id config)).
Proof.
  intros Hlive Hrun Hok Hw children.
  unfold update_via, bind in Hrun. unfold space_get_hierarchy, bind, emit, ret in Hrun.
  simpl in Hrun.
  destruct (hierarchy (world st) (cfg_space_id config)) as [[|space rest]|err] eqn:Hh;
    try discriminate.
  match type of Hrun with
  | for_each _ _ ?s = _ => set (st0 := s) in Hrun
  end.
  destruct (for_each_settles config (children_state space) (children_state space)
              st0 st1 [] Hlive Hrun Hok) as (Q1 & Q2 & Hh1).
  { intros e He. right. unfold published_children in He. subst st0. simpl in He.
    rewrite Hh in He. exact He. }
  { intros e _ Hin. inversion Hin. }
  destruct (Hh1 space rest) as [space1 Hspace1]; [subst st0; exact Hh|].
  assert (Hall : forall room, room ∈ children -> @settled R2 config (world st1) room).
  { intros room Hin. destruct (Q1 room Hin) as [Hs|Hsnap]; [exact Hs|].
    apply Q2; [exact Hin|exact Hsnap]. }
  split; [|split; [apply already_matching_no_put|split; [exact Hall|]]].
  2:{ unfold children.
      rewrite (@for_each_entries R1 _ _ _ _ _ Hrun).
      - reflexivity.
      - intros room Hin. apply list_elem_of_fmap. exists room. split; [reflexivity|].
        unfold published_children. subst st0. simpl. rewrite Hh. exact Hin. }
  unfold update_via, bind. unfold space_get_hierarchy, bind, emit, ret. simpl.
  rewrite Hw, Hspace1.
  assert (Hch : children = children_state space1).
  { unfold children, published_children. rewrite Hspace1. reflexivity. }
  rewrite (@for_each_settled R2).
  - unfold log. simpl. rewrite Hw, <- app_assoc, Hch. reflexivity.
  - intros room Hin. simpl. apply Hall. rewrite Hch. exact Hin.
Qed.

End Idempotence.

(** ** More on [split] and [get_user_homeserver] *)

Lemma split_length sep s : length (split sep s) = S (count_char sep s).
Proof.
  induction s as [|c s IH]; simpl; [reflexivity|].
  destruct (Ascii.eqb c sep); simpl; [rewrite IH; reflexivity|].
  destruct (split sep s) as [|h t]; simpl in *; [discriminate|exact IH].
Qed.

Lemma split_pieces sep s : Forall (fun piece => count_char sep piece = 0%nat) (split sep s).
Proof.
  induction s as [|c s IH]; simpl; [repeat constructor|].
  destruct (Ascii.eqb c sep) eqn:E; [constructor; [reflexivity|exact IH]|].
  destruct (split sep s) as [|h t]; [repeat constructor; simpl; rewrite E; reflexivity|].
  apply Forall_cons in IH as [Hh Ht]. constructor; [|exact Ht].
  simpl. rewrite E, Hh. reflexivity.
Qed.

Lemma split_app sep a rest :
  count_char sep a = 0%nat -> split sep (a +:+ String sep rest) = a :: split sep rest.
Proof.
  induction a as [|c a IH]; simpl.
  - intros _. rewrite Ascii.eqb_refl. reflexivity.
  - destruct (Ascii.eqb c sep); [discriminate|]. intros H. rewrite IH by exact H. reflexivity.
Qed.

(** Joining the pieces of [s.split(sep)] with [sep] gives [s] back,
    and there is one piece more than there are separators. *)
Lemma split_join_round_trip (sep : ascii) (s : string) :
  String.concat (String sep EmptyString) (split sep s) = s /\
  length (split sep s) = S (count_char sep s).
Proof.
  split; [|apply split_length].
  induction s as [|c s IH]; simpl; [reflexivity|].
  destruct (Ascii.eqb c sep) eqn:E.
  - apply Ascii.eqb_eq in E. subst c.
    pose proof (split_nonempty sep s) as Hne.
    destruct (split sep s) as [|h t]; [congruence|].
    simpl in *. rewrite IH. reflexivity.
  - pose proof (split_nonempty sep s) as Hne.
    destruct (split sep s) as [|h t]; [congruence|].
    destruct t; simpl in *; rewrite <- IH; reflexivity.
Qed.

(** X1: For a well-formed identifier, [local:server] with no further
    ':', the extractor returns the server part. *)
Theorem get_user_homeserver_well_formed (localpart server : string) :
  count_char ":" localpart = 0%nat ->
  count_char ":" server = 0%nat ->
  get_user_homeserver (localpart +:+ ":" +:+ server) = Ok server.
Proof.
  intros Hl Hs. unfold get_user_homeserver.
  change (localpart +:+ ":" +:+ server) with (localpart +:+ String ":" server).
  rewrite (split_app _ _ _ Hl), (split_no_sep _ _ Hs). reflexivity.
Qed.

(** X2: Whatever the identifier, a returned server name contains no ':',
    and the identifier had at least one. *)
Theorem get_user_homeserver_no_delimiter (uid server : string) :
  get_user_homeserver uid = Ok server ->
  count_char ":" server = 0%nat /\ (1 <= count_char ":" uid)%nat.
Proof.
  unfold get_user_homeserver. intros H.
  destruct (split ":" uid !! 1%nat) as [s|] eqn:E; [|discriminate].
  injection H as ->. split.
  - pose proof (split_pieces ":" uid) as Hp.
    rewrite Forall_forall in Hp. apply Hp.
    eapply list_elem_of_lookup_2. exact E.
  - apply lookup_lt_Some in E. rewrite split_length in E. lia.
Qed.

(** ** More on [most_common_servers] *)

Lemma Counter_NoDup lst : NoDup (Counter lst).*1.
Proof. apply (counter_fold_NoDup lst []). apply NoDup_nil_2. Qed.

Lemma filter_sublist {A} (f : A -> bool) l : List.filter f l `sublist_of` l.
Proof.
  induction l as [|x l IH]; simpl; [constructor|].
  destruct (f x); [apply sublist_skip|apply sublist_cons]; exact IH.
Qed.

Lemma insert_desc_sorted {A} (key : A -> nat) x l :
  StronglySorted (fun a b => (key b <= key a)%nat) l ->
  StronglySorted (fun a b => (key b <= key a)%nat) (insert_desc key x l).
Proof.
  induction l as [|y l IH]; simpl; intros H.
  - repeat constructor.
  - apply StronglySorted_inv in H as [Hl Hy].
    destruct (key x <? key y)%nat eqn:E.
    + apply Nat.ltb_lt in E. constructor; [apply IH; exact Hl|].
      rewrite insert_desc_perm. constructor; [lia|exact Hy].
    + apply Nat.ltb_ge in E. constructor; [constructor; assumption|].
      constructor; [exact E|].
      eapply Forall_impl; [exact Hy|]. simpl. intros z Hz. lia.
Qed.

Lemma sorted_reverse_sorted {A} (key : A -> nat) l :
  StronglySorted (fun a b => (key b <= key a)%nat) (sorted_reverse key l).
Proof.
  induction l as [|x l IH]; simpl; [constructor|]. apply insert_desc_sorted, IH.
Qed.

(** The items [most_common_servers] slices its result from: the counted,
    filtered and sorted pairs. *)
Lemma ranked_items lst n m :
  exists items k,
    most_common_servers lst n m = map fst (take k items) /\
    items ≡ₚ List.filter (fun ic => m <=? Z.of_nat (snd ic)) (Counter lst) /\
    StronglySorted (fun a b => (snd b <= snd a)%nat) items /\
    Z.of_nat k = (if n <? 0 then Z.max 0 (Z.of_nat (length items) + n) else n).
Proof.
  eexists (sorted_reverse snd _), _. split; [reflexivity|].
  split; [apply sorted_reverse_perm|]. split; [apply sorted_reverse_sorted|].
  destruct (n <? 0) eqn:E; [lia|]. apply Z.ltb_ge in E. lia.
Qed.

Lemma ranked_item_count lst m (items : list (string * nat)) s c :
  items ≡ₚ List.filter (fun ic => m <=? Z.of_nat (snd ic)) (Counter lst) ->
  (s, c) ∈ items ->
  c = count_occ string_dec lst s /\ m <= Z.of_nat c /\ s ∈ lst.
Proof.
  intros Hp H. rewrite Hp in H.
  apply list_elem_of_In, filter_In in H as [H Hm]. apply list_elem_of_In in H.
  simpl in Hm. apply Z.leb_le in Hm.
  split; [apply Counter_elem; exact H|]. split; [exact Hm|].
  apply Counter_key, list_elem_of_fmap. exists (s, c). auto.
Qed.

Lemma ranked_item_intro lst m (items : list (string * nat)) s :
  items ≡ₚ List.filter (fun ic => m <=? Z.of_nat (snd ic)) (Counter lst) ->
  s ∈ lst -> m <= Z.of_nat (count_occ string_dec lst s) ->
  (s, count_occ string_dec lst s) ∈ items.
Proof.
  intros Hp Hs Hm. rewrite Hp. apply list_elem_of_In, filter_In.
  assert (Hin : (s, count_occ string_dec lst s) ∈ Counter lst).
  { apply Counter_key, list_elem_of_fmap in Hs as ([s' c] & -> & H). simpl.
    rewrite <- (Counter_elem _ _ _ H). exact H. }
  split; [apply list_elem_of_In; exact Hin|]. simpl. apply Z.leb_le. exact Hm.
Qed.

Lemma most_common_servers_NoDup lst n m : NoDup (most_common_servers lst n m).
Proof.
  destruct (ranked_items lst n m) as (items & k & -> & Hp & _ & _).
  apply (sublist_NoDup _ (fst <$> items)); [|apply fmap_sublist, sublist_take].
  rewrite Hp.
  apply (sublist_NoDup _ (fst <$> Counter lst)); [|apply fmap_sublist, filter_sublist].
  apply Counter_NoDup.
Qed.

(** X3: The result lists each server once, and only servers of the
    input. *)
Theorem most_common_servers_distinct (lst : list string) (n m : Z) :
  NoDup (most_common_servers lst n m) /\
  forall s, s ∈ most_common_servers lst n m -> s ∈ lst.
Proof.
  split; [apply most_common_servers_NoDup|].
  intros s H; apply most_common_servers_elem in H; tauto.
Qed.

(** X4: The result is ordered by number of occurrences, most frequent
    first. *)
Theorem most_common_servers_sorted (lst : list string) (n m : Z) :
  StronglySorted
    (fun s t => (count_occ string_dec lst t <= count_occ string_dec lst s)%nat)
    (most_common_servers lst n m).
Proof.
  destruct (ranked_items lst n m) as (items & k & -> & Hp & Hs & _).
  assert (Hall : forall p, p ∈ take k items -> snd p = count_occ string_dec lst (fst p)).
  { intros [s c] H. apply subseteq_take in H.
    apply (ranked_item_count _ _ _ _ _ Hp) in H. tauto. }
  assert (Hst : StronglySorted (fun a b => (snd b <= snd a)%nat) (take k items)).
  { rewrite <- (take_drop k items) in Hs. eapply StronglySorted_app_1_l. exact Hs. }
  induction Hst as [|a l Hl IH Ha]; simpl; [constructor|].
  constructor.
  - apply IH. intros p Hp'. apply Hall. right. exact Hp'.
  - apply Forall_fmap, Forall_forall. intros b Hb. simpl.
    rewrite Forall_forall in Ha.
    rewrite <- (Hall a), <- (Hall b); [apply Ha; exact Hb|right; exact Hb|left].
Qed.

(** X5: No server left out occurs more often than a server returned: a
    server of the input that reaches the threshold and is not in the
    result occurs at most as often as every server in the result. *)
Theorem most_common_servers_top (lst : list string) (n m : Z) (s t : string) :
  s ∈ most_common_servers lst n m ->
  t ∈ lst -> m <= Z.of_nat (count_occ string_dec lst t) ->
  t ∉ most_common_servers lst n m ->
  (count_occ string_dec lst t <= count_occ string_dec lst s)%nat.
Proof.
  destruct (ranked_items lst n m) as (items & k & -> & Hp & Hs & _).
  intros Hin Ht Hm Hout.
  apply list_elem_of_fmap in Hin as ([s' c] & -> & Hin). simpl.
  assert (Hc : c = count_occ string_dec lst s').
  { apply subseteq_take in Hin. apply (ranked_item_count _ _ _ _ _ Hp) in Hin. tauto. }
  pose proof (ranked_item_intro _ _ _ _ Hp Ht Hm) as Hitem.
  rewrite <- (take_drop k items) in Hitem, Hs.
  apply elem_of_app in Hitem as [Hitem|Hitem].
  - exfalso. apply Hout. apply list_elem_of_fmap. eexists. split; [|exact Hitem]. reflexivity.
  - pose proof (StronglySorted_app_1_elem_of _ _ _ _ _ Hs Hin Hitem) as Hle.
    simpl in Hle. lia.
Qed.

Lemma filter_length_perm {A} (f : A -> bool) l l' :
  l ≡ₚ l' -> length (List.filter f l) = length (List.filter f l').
Proof.
  induction 1 as [|x l l' _ IH|x y l|l l' l'' _ IH1 _ IH2]; simpl.
  - reflexivity.
  - destruct (f x); simpl; rewrite IH; reflexivity.
  - destruct (f x), (f y); reflexivity.
  - rewrite IH1. exact IH2.
Qed.

Lemma filter_length_keys (f : string -> bool) (g : string * nat -> bool)
    (d : list (string * nat)) :
  (forall p, p ∈ d -> g p = f (fst p)) ->
  length (List.filter g d) = length (List.filter f (map fst d)).
Proof.
  induction d as [|p d IH]; simpl; intros H; [reflexivity|].
  rewrite (H p) by left. destruct (f (fst p)); simpl; rewrite IH; auto.
  - intros q Hq. apply H. right. exact Hq.
  - intros q Hq. apply H. right. exact Hq.
Qed.

Lemma ranked_items_length lst m (items : list (string * nat)) :
  items ≡ₚ List.filter (fun ic => m <=? Z.of_nat (snd ic)) (Counter lst) ->
  length items = length (qualifying lst m).
Proof.
  intros Hp. rewrite Hp. unfold qualifying.
  rewrite (filter_length_keys
             (fun s => m <=? Z.of_nat (count_occ string_dec lst s))).
  - apply filter_length_perm. apply NoDup_Permutation.
    + apply Counter_NoDup.
    + apply NoDup_remove_dups.
    + intros s. rewrite elem_of_remove_dups. apply Counter_key.
  - intros [s c] H. simpl. rewrite (Counter_elem _ _ _ H). reflexivity.
Qed.

Lemma selected_count_eq lst n m :
  Z.of_nat (length (most_common_servers lst n m))
  = if n <? 0 then Z.max 0 (Z.of_nat (length (qualifying lst m)) + n)
    else Z.min n (Z.of_nat (length (qualifying lst m))).
Proof.
  destruct (ranked_items lst n m) as (items & k & -> & Hp & _ & Hk).
  rewrite length_map, length_take.
  rewrite <- (ranked_items_length _ _ _ Hp).
  destruct (n <? 0) eqn:E; [apply Z.ltb_lt in E|apply Z.ltb_ge in E]; lia.
Qed.

(** X6: The number of servers returned: with [q] servers reaching the
    threshold, it is [min n q] for [n >= 0], and [max 0 (q + n)] for a
    negative [n] (the slice then drops the last [-n] of them). *)
Theorem most_common_servers_length (lst : list string) (n m : Z) :
  let q := Z.of_nat (length (qualifying lst m)) in
  Z.of_nat (length (most_common_servers lst n m))
  = if n <? 0 then Z.max 0 (q + n) else Z.min n q.
Proof. intros q. apply selected_count_eq. Qed.

(** X7: When [n] is at least the number of servers that reach the
    threshold, the result holds exactly the servers of the input that
    occur at least [m] times. *)
Theorem most_common_servers_complete (lst : list string) (n m : Z) (s : string) :
  Z.of_nat (length (qualifying lst m)) <= n ->
  s ∈ most_common_servers lst n m
  <-> s ∈ lst /\ m <= Z.of_nat (count_occ string_dec lst s).
Proof.
  intros Hn. split; [apply most_common_servers_elem|]. intros [Hs Hm].
  destruct (ranked_items lst n m) as (items & k & -> & Hp & _ & Hk).
  rewrite <- (ranked_items_length _ _ _ Hp) in Hn.
  rewrite take_ge.
  - apply list_elem_of_fmap. exists (s, count_occ string_dec lst s).
    split; [reflexivity|]. apply (ranked_item_intro _ _ _ _ Hp); assumption.
  - destruct (n <? 0) eqn:E; [apply Z.ltb_lt in E|apply Z.ltb_ge in E]; lia.
Qed.

(** *** Ties are broken by first appearance *)

Lemma dict_set_keys_in {V} (x : string) (v : V) d :
  x ∈ d.*1 -> (dict_set x v d).*1 = d.*1.
Proof.
  induction d as [|[k' v'] d IH]; simpl; intros H; [inversion H|].
  destruct (String.eqb k' x) eqn:E; simpl; [reflexivity|].
  apply String.eqb_neq in E. f_equal. apply IH.
  apply elem_of_cons in H as [H|H]; [congruence|exact H].
Qed.

Lemma dict_set_keys_new {V} (x : string) (v : V) d :
  x ∉ d.*1 -> (dict_set x v d).*1 = d.*1 ++ [x].
Proof.
  induction d as [|[k' v'] d IH]; simpl; intros H; [reflexivity|].
  destruct (String.eqb k' x) eqn:E; simpl.
  - apply String.eqb_eq in E. subst k'. exfalso. apply H. left.
  - f_equal. apply IH. intros Hin. apply H. right. exact Hin.
Qed.

Lemma Counter_snoc lst x : Counter (lst ++ [x]) = count_step (Counter lst) x.
Proof. unfold Counter. rewrite fold_left_app. reflexivity. Qed.

Lemma Counter_keys_order lst s t :
  [s; t] `sublist_of` (Counter lst).*1 ->
  exists l1 l2, lst = l1 ++ s :: l2 /\ (s ∉ l1) /\ (t ∉ l1).
Proof.
  induction lst as [|x lst IH] using rev_ind; intros H.
  - apply sublist_nil_r in H. discriminate.
  - rewrite Counter_snoc in H. unfold count_step in H.
    assert (Hold : [s; t] `sublist_of` (Counter lst).*1 ->
                   exists l1 l2, (lst ++ [x]) = l1 ++ s :: l2 /\ (s ∉ l1) /\ (t ∉ l1)).
    { intros H'. destruct (IH H') as (l1 & l2 & -> & Hs & Ht).
      exists l1, (l2 ++ [x]). rewrite <- app_assoc. auto. }
    destruct (decide (x ∈ (Counter lst).*1)) as [Ex|Ex];
      [rewrite (dict_set_keys_in _ _ _ Ex) in H; auto|].
    rewrite (dict_set_keys_new _ _ _ Ex) in H.
    apply sublist_app_r in H as (p1 & p2 & Hp & H1 & H2).
    destruct p2 as [|y p2].
    + rewrite app_nil_r in Hp. subst p1. auto.
    + assert (y = x /\ p2 = []) as [-> ->].
      { apply sublist_cons_l in H2 as (k1 & k2 & Hk & H2).
        destruct k1 as [|z k1]; simpl in Hk.
        - injection Hk as <- <-. apply sublist_nil_r in H2. auto.
        - injection Hk as _ Hk. destruct k1; discriminate. }
      destruct p1 as [|a [|b p1]]; simpl in Hp; try discriminate;
        [|injection Hp as _ _ Hp; destruct p1; discriminate].
      injection Hp as <- <-.
      assert (Hs : s ∈ lst).
      { apply Counter_key. eapply elem_of_sublist; [|exact H1]. left. }
      assert (Ht : t ∉ lst) by (rewrite <- Counter_key; exact Ex).
      apply list_elem_of_split_l in Hs as (l1 & l2 & -> & Hs).
      exists l1, (l2 ++ [t]). rewrite <- app_assoc. simpl.
      split; [reflexivity|]. split; [exact Hs|].
      intros Hin. apply Ht. apply elem_of_app. left. exact Hin.
Qed.

Lemma singleton_sublist {A} (b : A) l : b ∈ l -> [b] `sublist_of` l.
Proof.
  intros H. apply list_elem_of_split in H as (l1 & l2 & ->).
  apply sublist_inserts_l, sublist_skip, sublist_nil_l.
Qed.

Lemma insert_desc_stable {A} (key : A -> nat) x l a b :
  [a; b] `sublist_of` insert_desc key x l -> key a = key b ->
  [a; b] `sublist_of` x :: l.
Proof.
  induction l as [|y l IH]; simpl; intros H Hkey; [exact H|].
  destruct (key x <? key y)%nat eqn:E; [|exact H].
  apply Nat.ltb_lt in E.
  apply sublist_cons_r in H as [H|(l' & Hl' & H)].
  - apply IH in H; [|exact Hkey].
    apply sublist_cons_r in H as [H|(l' & Hl' & H)].
    + apply sublist_cons, sublist_cons. exact H.
    + injection Hl' as -> <-. apply sublist_skip, sublist_cons. exact H.
  - injection Hl' as -> <-.
    assert (Hb : b ∈ insert_desc key x l) by (eapply elem_of_sublist; [left|exact H]).
    rewrite insert_desc_perm in Hb. apply elem_of_cons in Hb as [->|Hb]; [lia|].
    apply sublist_cons, sublist_skip, singleton_sublist. exact Hb.
Qed.

Lemma sorted_reverse_stable {A} (key : A -> nat) l a b :
  [a; b] `sublist_of` sorted_reverse key l -> key a = key b -> [a; b] `sublist_of` l.
Proof.
  induction l as [|x l IH]; simpl; intros H Hkey; [exact H|].
  apply insert_desc_stable in H; [|exact Hkey].
  apply sublist_cons_r in H as [H|(l' & Hl' & H)].
  - apply sublist_cons, IH; assumption.
  - injection Hl' as -> <-. apply sublist_skip, singleton_sublist.
    rewrite <- (sorted_reverse_perm key l). eapply elem_of_sublist; [left|exact H].
Qed.

Lemma sublist_fst_pair {V} (s t : string) (d : list (string * V)) :
  [s; t] `sublist_of` d.*1 ->
  exists c1 c2, [(s, c1); (t, c2)] `sublist_of` d.
Proof.
  induction d as [|[k v] d IH]; simpl; intros H.
  - apply sublist_nil_r in H. discriminate.
  - apply sublist_cons_r in H as [H|(l' & Hl' & H)].
    + destruct (IH H) as (c1 & c2 & Hc). exists c1, c2. apply sublist_cons. exact Hc.
    + injection Hl' as -> <-.
      assert (Ht : t ∈ d.*1) by (eapply elem_of_sublist; [left|exact H]).
      apply list_elem_of_fmap in Ht as ([t' c2] & -> & Ht).
      exists v, c2. apply sublist_skip, singleton_sublist. exact Ht.
Qed.

(** X8: Among servers that occur equally often, the one that appears
    first in the input is listed first: if [s] is listed before [t] and
    both occur the same number of times, then the first [s] of the input
    comes before every [t]. *)
Theorem most_common_servers_tie_break (lst : list string) (n m : Z)
    (r1 r2 r3 : list string) (s t : string) :
  most_common_servers lst n m = r1 ++ s :: r2 ++ t :: r3 ->
  count_occ string_dec lst s = count_occ string_dec lst t ->
  exists l1 l2, lst = l1 ++ s :: l2 /\ (s ∉ l1) /\ (t ∉ l1).
Proof.
  intros Hres Hcount.
  assert (Hsub : [s; t] `sublist_of` most_common_servers lst n m).
  { rewrite Hres. apply sublist_inserts_l, sublist_skip, sublist_inserts_l.
    apply sublist_skip, sublist_nil_l. }
  unfold most_common_servers, slice_to in Hsub.
  set (filtered := List.filter (fun ic => m <=? Z.of_nat (snd ic)) (Counter lst)) in *.
  assert (Hsorted : [s; t] `sublist_of` (sorted_reverse snd filtered).*1).
  { etransitivity; [exact Hsub|]. apply fmap_sublist, sublist_take. }
  apply sublist_fst_pair in Hsorted as (c1 & c2 & Hpairs).
  assert (Hc1 : c1 = count_occ string_dec lst s).
  { eapply (ranked_item_count lst m (sorted_reverse snd filtered));
      [apply sorted_reverse_perm|].
    eapply elem_of_sublist; [left|exact Hpairs]. }
  assert (Hc2 : c2 = count_occ string_dec lst t).
  { eapply (ranked_item_count lst m (sorted_reverse snd filtered));
      [apply sorted_reverse_perm|].
    eapply elem_of_sublist; [right; left|exact Hpairs]. }
  apply sorted_reverse_stable in Hpairs; [|simpl; congruence].
  apply Counter_keys_order.
  change [s; t] with (fst <$> [(s, c1); (t, c2)]).
  apply fmap_sublist. etransitivity; [exact Hpairs|]. apply filter_sublist.
Qed.

(** ** More on [get_highest_level_members] and the member levels *)

Lemma get_highest_level_members_Raise member_levels threshold e :
  get_highest_level_members member_levels threshold = Raise e
  <-> member_levels = [] /\ e = ValueError.
Proof.
  unfold get_highest_level_members. destruct member_levels as [|kv d]; simpl.
  - split; [intros [= <-]; auto|intros [_ ->]; reflexivity].
  - destruct (_ <=? threshold); split; try discriminate; intros [H _]; discriminate.
Qed.

(** X9: The call fails exactly on the empty mapping, with [ValueError]
    from [max], whatever the threshold. *)
Theorem get_highest_level_members_failure (member_levels : list (string * Z))
    (threshold : Z) (e : exn) :
  get_highest_level_members member_levels threshold = Raise e
  <-> member_levels = [] /\ e = ValueError.
Proof. apply get_highest_level_members_Raise. Qed.

Lemma highest_filter_unique (d : list (string * Z)) uid v :
  NoDup d.*1 -> (uid, v) ∈ d ->
  (forall uid' v', (uid', v') ∈ d -> uid' <> uid -> v' < v) ->
  List.filter (fun kv => snd kv =? v) d = [(uid, v)].
Proof.
  induction d as [|[k x] d IH]; simpl; intros Hnd Hin Hlt; [inversion Hin|].
  apply NoDup_cons in Hnd as [Hk Hnd].
  assert (Hrest : forall p, p ∈ d -> fst p <> uid -> (snd p =? v) = false).
  { intros [k' x'] Hp Hne. simpl in *. apply Z.eqb_neq.
    assert (x' < v) by (apply (Hlt k'); [right; exact Hp|exact Hne]). lia. }
  apply elem_of_cons in Hin as [Heq|Hin].
  - injection Heq as <- <-. rewrite Z.eqb_refl. f_equal.
    assert (Hnone : forall p, p ∈ d -> (snd p =? v) = false).
    { intros p Hp. apply Hrest; [exact Hp|]. intros Heq. apply Hk.
      rewrite <- Heq. apply list_elem_of_fmap. eauto. }
    clear -Hnone. induction d as [|p d IH]; simpl; [reflexivity|].
    rewrite (Hnone p) by left. apply IH. intros q Hq. apply Hnone. right. exact Hq.
  - assert (Hne : k <> uid).
    { intros ->. apply Hk. apply list_elem_of_fmap. exists (uid, v). auto. }
    assert (x < v) by (apply (Hlt k); [left|exact Hne]).
    replace (x =? v) with false by (symmetry; apply Z.eqb_neq; lia).
    apply IH; [exact Hnd|exact Hin|].
    intros uid' v' Hp. apply Hlt. right. exact Hp.
Qed.

(** X10: A single member strictly above everyone else, and above the
    threshold, is returned alone. *)
Theorem get_highest_level_members_unique (member_levels : list (string * Z))
    (threshold : Z) (uid : string) (v : Z) :
  NoDup member_levels.*1 ->
  (uid, v) ∈ member_levels ->
  threshold < v ->
  (forall uid' v', (uid', v') ∈ member_levels -> uid' <> uid -> v' < v) ->
  get_highest_level_members member_levels threshold = Ok [uid].
Proof.
  intros Hnd Hin Hthr Hlt. unfold get_highest_level_members.
  destruct (py_max_spec (map snd member_levels)) as (highest & Hmax & Hhi & Hub).
  { destruct member_levels; [inversion Hin|discriminate]. }
  rewrite Hmax. simpl.
  assert (highest = v) as ->.
  { assert (v <= highest) by (apply Hub, list_elem_of_fmap; exists (uid, v); auto).
    apply list_elem_of_fmap in Hhi as ([uid' v'] & -> & Hp). simpl in *.
    destruct (string_dec uid' uid) as [->|Hne].
    - apply (dict_get_elem _ _ _ Hnd) in Hp. apply (dict_get_elem _ _ _ Hnd) in Hin.
      congruence.
    - specialize (Hlt _ _ Hp Hne). lia. }
  replace (v <=? threshold) with false by (symmetry; apply Z.leb_gt; exact Hthr).
  rewrite (highest_filter_unique _ uid v); auto.
Qed.

(** For any threshold, the returned members appear in mapping order,
    once each when the keys are distinct, and each of them has a level
    strictly above the threshold. *)
Lemma get_highest_level_members_above_threshold (member_levels : list (string * Z))
    (threshold : Z) (members : list string) :
  get_highest_level_members member_levels threshold = Ok members ->
  members `sublist_of` member_levels.*1 /\
  forall uid, uid ∈ members ->
              exists v, (uid, v) ∈ member_levels /\ threshold < v.
Proof.
  unfold get_highest_level_members.
  destruct (py_max (map snd member_levels)) as [highest|]; simpl; [|discriminate].
  destruct (highest <=? threshold) eqn:E; intros [= <-].
  - split; [apply sublist_nil_l|]. intros uid H. inversion H.
  - apply Z.leb_gt in E. split; [apply fmap_sublist, filter_sublist|].
    intros uid H. apply list_elem_of_fmap in H as ([uid' v] & -> & H).
    apply list_elem_of_In, filter_In in H as [H Hv]. simpl in *.
    apply Z.eqb_eq in Hv. subst v. exists highest. split; [apply list_elem_of_In; exact H|exact E].
Qed.

Lemma member_levels_fold_get power_levels members : forall acc uid,
  dict_get uid
    (fold_left (fun d member =>
                  dict_set (user_id member)
                           (member_level power_levels (user_id member)) d)
               members acc)
  = if bool_decide (uid ∈ map user_id members)
    then Some (member_level power_levels uid)
    else dict_get uid acc.
Proof.
  induction members as [|m members IH]; intros acc uid; simpl; [reflexivity|].
  rewrite IH, dict_get_set.
  destruct (bool_decide (uid ∈ map user_id members)) eqn:E.
  - apply bool_decide_eq_true in E.
    rewrite bool_decide_eq_true_2; [reflexivity|right; exact E].
  - apply bool_decide_eq_false in E.
    destruct (String.eqb (user_id m) uid) eqn:Em.
    + apply String.eqb_eq in Em. subst uid.
      rewrite bool_decide_eq_true_2; [reflexivity|left].
    + apply String.eqb_neq in Em. rewrite bool_decide_eq_false_2; [reflexivity|].
      intros H. apply elem_of_cons in H as [H|H]; [congruence|contradiction].
Qed.

Lemma member_levels_fold_NoDup power_levels members : forall acc,
  NoDup acc.*1 ->
  NoDup (fold_left (fun d member =>
                      dict_set (user_id member)
                               (member_level power_levels (user_id member)) d)
                   members acc).*1.
Proof.
  induction members as [|m members IH]; intros acc H; simpl; [exact H|].
  apply IH, dict_set_NoDup, H.
Qed.

Lemma member_levels_NoDup members power_levels :
  NoDup (member_levels_of members power_levels).*1.
Proof. apply member_levels_fold_NoDup. apply NoDup_nil_2. Qed.

Lemma member_levels_get members power_levels uid :
  dict_get uid (member_levels_of members power_levels)
  = if bool_decide (uid ∈ map user_id members)
    then Some (member_level power_levels uid) else None.
Proof. unfold member_levels_of. rewrite member_levels_fold_get. reflexivity. Qed.

Lemma member_levels_elem members power_levels uid v :
  (uid, v) ∈ member_levels_of members power_levels
  <-> uid ∈ map user_id members /\ v = member_level power_levels uid.
Proof.
  split.
  - intros H. apply dict_get_elem in H; [|apply member_levels_NoDup].
    rewrite member_levels_get in H.
    destruct (bool_decide (uid ∈ map user_id members)) eqn:E; [|discriminate].
    apply bool_decide_eq_true in E. injection H as <-. auto.
  - intros [Hin ->]. apply elem_of_dict_get. rewrite member_levels_get.
    rewrite bool_decide_eq_true_2; [reflexivity|exact Hin].
Qed.

(** X11: The member-level mapping has one entry per distinct member id,
    even when an id is listed twice; the level is the member's entry in
    [users] when there is one, else [users_default], else 0. *)
Theorem member_levels_effective (members : list RoomMember) (power_levels : PowerLevels) :
  NoDup (member_levels_of members power_levels).*1 /\
  forall uid v,
    (uid, v) ∈ member_levels_of members power_levels <->
    uid ∈ map user_id members /\
    v = match users power_levels with
        | Some overrides =>
            match overrides !! uid with
            | Some level => level
            | None => default 0 (users_default power_levels)
            end
        | None => default 0 (users_default power_levels)
        end.
Proof.
  split; [apply member_levels_NoDup|]. intros uid v.
  rewrite member_levels_elem. unfold member_level.
  destruct (users power_levels) as [overrides|]; simpl.
  - destruct (overrides !! uid); reflexivity.
  - rewrite lookup_empty. reflexivity.
Qed.

(** ** More on the selection for one room *)

Lemma get_user_homeserver_Raise uid e :
  get_user_homeserver uid = Raise e <-> e = IndexError /\ count_char ":" uid = 0%nat.
Proof.
  unfold get_user_homeserver. split.
  - destruct (split ":" uid !! 1%nat) eqn:E; [discriminate|]. intros [= <-].
    split; [reflexivity|]. apply lookup_ge_None in E. rewrite split_length in E. lia.
  - intros [-> H]. rewrite (split_no_sep _ _ H). reflexivity.
Qed.

Lemma comprehension_Raise {A B} (f : A -> result B) l e :
  comprehension f l = Raise e -> exists x, x ∈ l /\ f x = Raise e.
Proof.
  induction l as [|x l IH]; simpl; [discriminate|].
  destruct (f x) as [y|e'] eqn:Ef; simpl.
  - destruct (comprehension f l) as [ys|e']; simpl; [discriminate|].
    intros [= ->]. destruct (IH eq_refl) as (x' & Hin & Hx'). exists x'. split; [right|]; auto.
  - intros [= ->]. exists x. split; [left|exact Ef].
Qed.

Lemma comprehension_fails {A B} (f : A -> result B) l x e :
  x ∈ l -> f x = Raise e -> exists e', comprehension f l = Raise e'.
Proof.
  induction l as [|y l IH]; simpl; intros Hin Hx; [inversion Hin|].
  destruct (f y) as [b|e'] eqn:Ef; simpl; [|eauto].
  apply elem_of_cons in Hin as [->|Hin]; [congruence|].
  destruct (IH Hin Hx) as [e'' ->]. simpl. eauto.
Qed.

Lemma comprehension_Ok_inv {A B} (f : A -> result B) l ys x :
  comprehension f l = Ok ys -> x ∈ l -> exists y, f x = Ok y.
Proof.
  revert ys. induction l as [|z l IH]; simpl; intros ys H Hin; [inversion Hin|].
  destruct (f z) as [b|] eqn:Ef; simpl in H; [|discriminate].
  destruct (comprehension f l) as [bs|]; simpl in H; [|discriminate].
  apply elem_of_cons in Hin as [->|Hin]; [eauto|]. eapply IH; eauto.
Qed.

Lemma member_levels_nil members power_levels :
  member_levels_of members power_levels = [] -> members = [].
Proof.
  destruct members as [|m members]; [reflexivity|]. intros H. exfalso.
  assert (Hin : user_id m ∈ map user_id (m :: members)) by left.
  assert (Hget := member_levels_get (m :: members) power_levels (user_id m)).
  rewrite H, bool_decide_eq_true_2 in Hget by exact Hin. discriminate.
Qed.

Section MoreSelection.
Context {R : Runtime}.

(** X12: The selection for a room fails in exactly two ways: with
    [IndexError] when some member id has no ':', and with [ValueError]
    when the room has no member at all. *)
Theorem room_servers_failure config (members : list RoomMember)
    (power_levels : PowerLevels) (e : exn) :
  room_servers config members power_levels = Raise e
  <-> (e = IndexError /\
       exists member, member ∈ members /\ count_char ":" (user_id member) = 0%nat)
      \/ (e = ValueError /\ members = []).
Proof.
  split.
  - unfold room_servers.
    destruct (comprehension _ members) as [all_servers|e0] eqn:Hall; simpl.
    + destruct (get_highest_level_members _ 50) as [hm|e0] eqn:Hhm; simpl.
      * destruct (comprehension get_user_homeserver hm) as [hs|e0] eqn:Hhs; simpl;
          [discriminate|].
        intros [= ->]. exfalso.
        apply comprehension_Raise in Hhs as (uid & Huid & Hfail).
        apply (get_highest_level_members_key _ _ _ _ Hhm) in Huid.
        apply member_levels_fold_key in Huid as [Huid|(m & Hm & <-)]; [inversion Huid|].
        destruct (comprehension_Ok_inv _ _ _ _ Hall Hm) as [y Hy]. simpl in Hy. congruence.
      * intros [= ->]. apply get_highest_level_members_Raise in Hhm as [Hnil ->].
        right. split; [reflexivity|]. eapply member_levels_nil. exact Hnil.
    + intros [= ->]. apply comprehension_Raise in Hall as (m & Hm & Hfail).
      apply get_user_homeserver_Raise in Hfail as [-> Hc]. left. eauto.
  - intros [[-> (m & Hm & Hc)]|[-> ->]]; [|reflexivity].
    unfold room_servers.
    destruct (comprehension_fails
                (fun member => get_user_homeserver (user_id member)) members m IndexError Hm)
      as [e' He'].
    { apply get_user_homeserver_Raise. auto. }
    rewrite He'. simpl. f_equal.
    apply comprehension_Raise in He' as (m' & _ & Hfail).
    apply get_user_homeserver_Raise in Hfail. tauto.
Qed.

(** X13: The computed list never repeats a server, and neither does the
    list carried by an update request. *)
Theorem via_list_has_no_duplicates config :
  (forall members power_levels servers,
      room_servers config members power_levels = Ok servers -> NoDup servers)
  /\ (forall room (st : State) r st' evs sid ty c key ok,
        process_room config room st = (r, st') ->
        trace st' = trace st ++ evs ->
        Call (ReqPutState sid ty c key) ok ∈ evs ->
        NoDup (via c)).
Proof.
  assert (H1 : forall members power_levels servers,
             room_servers config members power_levels = Ok servers -> NoDup servers).
  { intros members power_levels servers H.
    apply room_servers_inv in H as (a & hm & hs & _ & _ & _ & ->).
    apply merge_servers_NoDup. }
  split; [exact H1|].
  intros room st r st' evs sid ty c key ok Hrun Htr Hput.
  destruct (process_room_put_inv _ _ _ _ _ _ Hrun Htr) as [_ Hinv].
  destruct (Hinv _ _ _ _ _ Hput) as (_ & _ & _ & members & pl & servers & _ & _ & _ & Hrs & Hp & _).
  rewrite Hp. eapply H1. exact Hrs.
Qed.

Lemma elem_of_merge_servers config all_servers common highest s :
  s ∈ List.filter (fun server => bool_decide (server ∈ all_servers))
        (cfg_additional_servers config) ++ common ++ highest ->
  s ∈ merge_servers config all_servers common highest.
Proof.
  intros H. unfold merge_servers. cbv zeta.
  destruct (_ && _); apply list_of_set_elem; [|exact H].
  apply elem_of_app. right. apply list_of_set_elem. exact H.
Qed.

(** X14: Nothing that was selected is lost in the merge: an allow-list
    entry on which a member is hosted, and every server picked by the
    frequency selector with the configured count and threshold, is in
    the computed list. *)
Theorem selected_servers_are_kept config (members : list RoomMember)
    (power_levels : PowerLevels) (servers all_servers : list string) :
  room_servers config members power_levels = Ok servers ->
  comprehension (fun member => get_user_homeserver (user_id member)) members
  = Ok all_servers ->
  (forall s, s ∈ cfg_additional_servers config -> s ∈ all_servers -> s ∈ servers)
  /\ (forall s, s ∈ most_common_servers all_servers (cfg_most_common_servers config)
                      (cfg_min_users_per_server config) ->
                s ∈ servers).
Proof.
  intros H Hall.
  apply room_servers_inv in H as (a & hm & hs & Ha & _ & _ & ->).
  rewrite Hall in Ha. injection Ha as <-. split.
  - intros s Hs Hin. apply elem_of_merge_servers, elem_of_app. left.
    apply list_elem_of_In, filter_In. split; [apply list_elem_of_In; exact Hs|].
    apply bool_decide_eq_true. exact Hin.
  - intros s Hs. apply elem_of_merge_servers, elem_of_app. right.
    apply elem_of_app. left. exact Hs.
Qed.

(** X15: The homeserver of every member who holds the highest level of
    the room, when that level is above 50, is in the computed list. *)
Theorem authority_servers_are_kept config (members : list RoomMember)
    (power_levels : PowerLevels) (servers : list string) (member : RoomMember) :
  room_servers config members power_levels = Ok servers ->
  member ∈ members ->
  50 < member_level power_levels (user_id member) ->
  (forall other, other ∈ members ->
                 member_level power_levels (user_id other)
                 <= member_level power_levels (user_id member)) ->
  exists s, get_user_homeserver (user_id member) = Ok s /\ s ∈ servers.
Proof.
  intros H Hm Hhigh Hmax.
  apply room_servers_inv in H as (a & hm & hs & Ha & Hhm & Hhs & ->).
  set (v := member_level power_levels (user_id member)) in *.
  assert (Hentry : (user_id member, v) ∈ member_levels_of members power_levels).
  { apply member_levels_elem. split; [|reflexivity].
    apply list_elem_of_fmap. exists member. auto. }
  assert (Hin : user_id member ∈ hm).
  { unfold get_highest_level_members in Hhm.
    destruct (py_max_spec (map snd (member_levels_of members power_levels)))
      as (highest & Hpm & Hhi & Hub).
    { destruct (member_levels_of members power_levels); [inversion Hentry|discriminate]. }
    rewrite Hpm in Hhm. simpl in Hhm.
    assert (highest = v) as ->.
    { assert (v <= highest) by (apply Hub, list_elem_of_fmap; exists (user_id member, v); auto).
      apply list_elem_of_fmap in Hhi as ([uid' v'] & -> & Hp). simpl in *.
      apply member_levels_elem in Hp as [Hp ->].
      apply list_elem_of_fmap in Hp as (other & -> & Hother).
      specialize (Hmax other Hother). fold v in Hmax. lia. }
    replace (v <=? 50) with false in Hhm by (symmetry; apply Z.leb_gt; exact Hhigh).
    injection Hhm as <-. apply list_elem_of_fmap. exists (user_id member, v).
    split; [reflexivity|]. apply list_elem_of_In, filter_In.
    split; [apply list_elem_of_In; exact Hentry|]. simpl. apply Z.eqb_refl. }
  destruct (comprehension_Ok_inv _ _ _ _ Hhs Hin) as [s Hs]. exists s. split; [exact Hs|].
  apply elem_of_merge_servers, elem_of_app. right. apply elem_of_app. right.
  apply (comprehension_elem _ _ _ Hhs). eauto.
Qed.

End MoreSelection.

Lemma filter_all {A} (f : A -> bool) l :
  (forall x, x ∈ l -> f x = true) -> List.filter f l = l.
Proof.
  induction l as [|x l IH]; simpl; intros H; [reflexivity|].
  rewrite (H x) by left. f_equal. apply IH. intros y Hy. apply H. right. exact Hy.
Qed.

Lemma qualifying_one lst : qualifying lst 1 = remove_dups lst.
Proof.
  unfold qualifying. apply filter_all. intros s Hs.
  rewrite elem_of_remove_dups, list_elem_of_In, (count_occ_In string_dec) in Hs.
  apply Z.leb_le. lia.
Qed.

Section MoreMerge.
Context {R : Runtime}.

Lemma merge_servers_reaches config all_servers common highest :
  cfg_ignore_requirementrs_to_reach_optimum config = true ->
  Z.min (cfg_optimal_via_servers config) (Z.of_nat (length (remove_dups all_servers)))
  <= Z.of_nat (length (merge_servers config all_servers common highest)).
Proof.
  intros Hflag. unfold merge_servers. cbv zeta. rewrite Hflag, andb_true_r.
  match goal with |- context [Z.of_nat (length ?p) <? _] => set (prior := p) end.
  destruct (Z.of_nat (length prior) <? cfg_optimal_via_servers config) eqn:E.
  - apply Z.ltb_lt in E.
    set (count := Z.max (cfg_most_common_servers config) (cfg_optimal_via_servers config)).
    assert (Hlen : Z.of_nat (length (most_common_servers all_servers count 1))
                   <= Z.of_nat (length (list_of_set
                                          (most_common_servers all_servers count 1 ++ prior)))).
    { rewrite list_of_set_length.
      rewrite <- (size_list_to_set (C := gset string)
                    (most_common_servers all_servers count 1))
        by apply most_common_servers_NoDup.
      apply inj_le, subseteq_size. rewrite list_to_set_app_L. apply union_subseteq_l. }
    rewrite selected_count_eq, qualifying_one in Hlen.
    assert (cfg_optimal_via_servers config <= count) by (unfold count; lia).
    destruct (count <? 0) eqn:Ec; [apply Z.ltb_lt in Ec|apply Z.ltb_ge in Ec]; lia.
  - apply Z.ltb_ge in E. lia.
Qed.

(** X16: With the relaxation flag set, the computed list reaches the
    optimum whenever the members are spread over that many servers: it
    has at least [min optimum d] entries, [d] being the number of
    distinct member servers. *)
Theorem relaxed_rerun_reaches_optimum config (members : list RoomMember)
    (power_levels : PowerLevels) (servers all_servers : list string) :
  cfg_ignore_requirementrs_to_reach_optimum config = true ->
  room_servers config members power_levels = Ok servers ->
  comprehension (fun member => get_user_homeserver (user_id member)) members
  = Ok all_servers ->
  Z.min (cfg_optimal_via_servers config) (Z.of_nat (length (remove_dups all_servers)))
  <= Z.of_nat (length servers).
Proof.
  intros Hflag H Hall.
  apply room_servers_inv in H as (a & hm & hs & Ha & _ & _ & ->).
  rewrite Hall in Ha. injection Ha as <-. apply merge_servers_reaches. exact Hflag.
Qed.

(** X17: Where each computed server comes from: it is an allow-list entry
    hosting a member, a frequency-selected server, an authority server,
    or, only when the flag is set and these are fewer than the optimum,
    a server of the relaxed re-run; and each of these is in the list. *)
Theorem merge_servers_provenance config (all_servers common highest : list string)
    (s : string) :
  let prior : gset string :=
    list_to_set
      (List.filter (fun server => bool_decide (server ∈ all_servers))
                   (cfg_additional_servers config) ++ common ++ highest) in
  s ∈ merge_servers config all_servers common highest
  <-> (s ∈ cfg_additional_servers config /\ s ∈ all_servers)
      \/ s ∈ common \/ s ∈ highest
      \/ (cfg_ignore_requirementrs_to_reach_optimum config = true /\
          Z.of_nat (size prior) < cfg_optimal_via_servers config /\
          s ∈ most_common_servers all_servers
                (Z.max (cfg_most_common_servers config) (cfg_optimal_via_servers config))
                1).
Proof.
  intros prior.
  assert (Hprior : s ∈ prior <-> (s ∈ cfg_additional_servers config /\ s ∈ all_servers)
                                 \/ s ∈ common \/ s ∈ highest).
  { unfold prior. rewrite elem_of_list_to_set, !elem_of_app.
    rewrite list_elem_of_In, filter_In, <- list_elem_of_In, bool_decide_eq_true. tauto. }
  rewrite <- (elem_of_list_to_set (C := gset string)), merge_servers_set.
  unfold merge_set. cbv zeta. fold prior.
  destruct (cfg_ignore_requirementrs_to_reach_optimum config).
  - rewrite andb_true_r.
    destruct (Z.of_nat (size prior) <? cfg_optimal_via_servers config) eqn:E.
    + apply Z.ltb_lt in E. rewrite elem_of_union, elem_of_list_to_set, Hprior. tauto.
    + apply Z.ltb_ge in E. rewrite Hprior. split; [tauto|].
      intros [H|[H|[H|(_ & H & _)]]]; [tauto|tauto|tauto|lia].
  - rewrite andb_false_r, Hprior. split; [tauto|].
    intros [H|[H|[H|(H & _)]]]; [tauto|tauto|tauto|discriminate].
Qed.

End MoreMerge.

Section MoreRun.
Context {R : Runtime}.

Ltac room_cases Hrun :=
  repeat match type of Hrun with
         | context [match ?x with _ => _ end] => destruct x eqn:?
         | context [apply_update _ _ _ _ _] =>
             rewrite apply_update_eq in Hrun; cbv zeta in Hrun
         end.

Ltac room_events Hrun Htr evs :=
  injection Hrun as <- <-; simpl in Htr; rewrite <- ?app_assoc in Htr;
  apply trace_tail in Htr; subst evs; simpl.

Lemma process_room_puts config room (st : State) r st' evs :
  process_room config room st = (r, st') ->
  trace st' = trace st ++ evs ->
  List.filter is_put evs = [] \/
  exists k members power_levels servers b ok,
    room_key room = Some k /\
    joined (world st) k = JoinedMembersResponse members /\
    room_state (world st) k "m.room.power_levels" ""
    = RoomGetStateEventResponse power_levels /\
    room_servers config members power_levels = Ok servers /\
    suggested (content room) = Some b /\
    cfg_dry_run config = false /\
    List.filter is_put evs
    = [Call (ReqPutState (cfg_space_id config) "m.space.child"
               {| suggested := Some b;
                  via := fst (shuffled config servers (random st)) |} k) ok].
Proof.
  intros Hrun Htr. destruct (room_key room) as [k|] eqn:Hk.
  2:{ rewrite (process_room_skip _ _ _ Hk) in Hrun. injection Hrun as <- <-.
      rewrite <- (app_nil_r (trace st)) in Htr at 1. apply trace_tail in Htr.
      subst evs. left. reflexivity. }
  rewrite (process_room_eq _ _ _ _ Hk) in Hrun.
  room_cases Hrun; room_events Hrun Htr evs;
    first [left; reflexivity
          | right; eexists k, _, _, _, _, _; repeat split; eassumption].
Qed.

(** X18: While one child entry is processed at most one update request is
    sent; it goes to the configured space as an [m.space.child] event
    keyed by the entry's room id, only in a live run, and it carries the
    entry's own [suggested] flag. *)
Theorem update_request_shape config room (st : State) r st' evs :
  process_room config room st = (r, st') ->
  trace st' = trace st ++ evs ->
  List.filter is_put evs = [] \/
  exists k b servers ok,
    room_key room = Some k /\
    suggested (content room) = Some b /\
    cfg_dry_run config = false /\
    List.filter is_put evs
    = [Call (ReqPutState (cfg_space_id config) "m.space.child"
               {| suggested := Some b; via := servers |} k) ok].
Proof.
  intros Hrun Htr.
  destruct (process_room_puts _ _ _ _ _ _ Hrun Htr)
    as [H|(k & members & pl & servers & b & ok & Hk & _ & _ & _ & Hb & Hdry & H)];
    [left; exact H|].
  right. exists k, b, (fst (shuffled config servers (random st))), ok. auto.
Qed.

(** X19: With [shuffle_order] unset, the list sent in an update request is
    the computed list itself, in the same order. *)
Theorem unshuffled_list_is_written config room (st : State) r st' evs sid ty c key ok :
  cfg_shuffle_order config = false ->
  process_room config room st = (r, st') ->
  trace st' = trace st ++ evs ->
  Call (ReqPutState sid ty c key) ok ∈ evs ->
  exists members power_levels,
    joined (world st) key = JoinedMembersResponse members /\
    room_state (world st) key "m.room.power_levels" ""
    = RoomGetStateEventResponse power_levels /\
    room_servers config members power_levels = Ok (via c).
Proof.
  intros Hsh Hrun Htr Hin.
  assert (Hf : Call (ReqPutState sid ty c key) ok ∈ List.filter is_put evs).
  { apply list_elem_of_In, filter_In. split; [apply list_elem_of_In; exact Hin|reflexivity]. }
  destruct (process_room_puts _ _ _ _ _ _ Hrun Htr)
    as [H|(k & members & pl & servers & b & ok' & Hk & Hj & Hs & Hrs & Hb & Hdry & H)];
    rewrite H in Hf; [inversion Hf|].
  apply list_elem_of_singleton in Hf. injection Hf as -> -> -> -> ->.
  exists members, pl. simpl. unfold shuffled. rewrite Hsh. auto.
Qed.

(** X20: An entry that needs an update but has no [suggested] key ends
    the run with [KeyError], after the two fetches and before any
    update request, whatever [ignore_errors] and [dry_run] say. *)
Theorem missing_suggested_aborts config room k members power_levels servers
    (st : State) :
  room_key room = Some k ->
  joined (world st) k = JoinedMembersResponse members ->
  room_state (world st) k "m.room.power_levels" ""
  = RoomGetStateEventResponse power_levels ->
  room_servers config members power_levels = Ok servers ->
  set_equal (via (content room)) servers = false ->
  suggested (content room) = None ->
  process_room config room st
  = (Raise (KeyError "suggested"),
     {| world := world st;
        random := snd (shuffled config servers (random st));
        trace := trace st
                 ++ [Call (ReqJoinedMembers k) true;
                     Call (ReqGetStateEvent k "m.room.power_levels" "") true] |}).
Proof.
  intros Hk Hj Hs Hrs Heq Hnone.
  rewrite (process_room_eq _ _ _ _ Hk), Hj.
  destruct (room_servers_inv _ _ _ _ Hrs) as (all_servers & _ & _ & -> & _).
  rewrite Hs, Hrs, apply_update_eq, Heq. cbv zeta. rewrite Hnone. reflexivity.
Qed.

(** X21: A malformed membership ends the run whatever the configuration:
    a member id without ':' raises [IndexError] before the power levels
    are requested, and a room without members raises [ValueError] once
    they have been fetched. *)
Theorem malformed_membership_aborts config room k members (st : State) :
  room_key room = Some k ->
  joined (world st) k = JoinedMembersResponse members ->
  ((exists member, member ∈ members /\ count_char ":" (user_id member) = 0%nat) ->
   process_room config room st
   = (Raise IndexError, log [Call (ReqJoinedMembers k) true] st))
  /\ (members = [] ->
      forall power_levels,
        room_state (world st) k "m.room.power_levels" ""
        = RoomGetStateEventResponse power_levels ->
        process_room config room st
        = (Raise ValueError,
           log [Call (ReqJoinedMembers k) true;
                Call (ReqGetStateEvent k "m.room.power_levels" "") true] st)).
Proof.
  intros Hk Hj. rewrite (process_room_eq _ _ _ _ Hk), Hj. split.
  - intros (m & Hm & Hc).
    destruct (comprehension_fails
                (fun member => get_user_homeserver (user_id member)) members m IndexError Hm)
      as [e' He'].
    { apply get_user_homeserver_Raise. auto. }
    rewrite He'. f_equal. f_equal.
    apply comprehension_Raise in He' as (m' & _ & Hfail).
    apply get_user_homeserver_Raise in Hfail. tauto.
  - intros -> power_levels Hs. simpl. rewrite Hs. reflexivity.
Qed.

Lemma request_in_scope_mono config (l l' : list ChildEvent) req :
  (forall room, room ∈ l -> room ∈ l') ->
  request_in_scope config l req -> request_in_scope config l' req.
Proof.
  intros Hsub. destruct req; simpl; [auto| | |].
  - intros (room & Hin & Hk). eauto.
  - intros (? & ? & room & Hin & Hk). eauto 6.
  - intros (? & ? & room & Hin & Hk). eauto 6.
Qed.

Lemma process_room_facts config room (st : State) r st' :
  process_room config room st = (r, st') -> run_facts config [room] st st'.
Proof.
  intros Hrun. unfold run_facts. destruct (room_key room) as [k|] eqn:Hk.
  2:{ rewrite (process_room_skip _ _ _ Hk) in Hrun. injection Hrun as <- <-.
      exists []. rewrite app_nil_r. repeat split; auto. intros req ok H. inversion H. }
  rewrite (process_room_eq _ _ _ _ Hk) in Hrun.
  room_cases Hrun; injection Hrun as <- <-;
    (eexists; split; [simpl; rewrite <- ?app_assoc; reflexivity|]);
    (split;
     [ intros req ok H;
       repeat (apply elem_of_cons in H as [H|H];
               [first [discriminate H
                      | injection H as -> ->; simpl; repeat (split; [reflexivity|]);
                        exists room; split; [left|exact Hk]]|]);
       inversion H
     | split;
       [ intros Hd; first [discriminate Hd | split; reflexivity]
       | intros Hsh; simpl; try (unfold shuffled; rewrite Hsh); reflexivity ] ]).
Qed.

Lemma for_each_facts config rooms : forall (st : State) r st',
  for_each (process_room config) rooms st = (r, st') -> run_facts config rooms st st'.
Proof.
  induction rooms as [|room rooms IH]; intros st r st' Hrun; simpl in Hrun.
  - injection Hrun as <- <-. exists []. rewrite app_nil_r. repeat split; auto.
    intros req ok H. inversion H.
  - unfold bind in Hrun.
    destruct (process_room config room st) as [[[]|e] st_mid] eqn:Hroom.
    + apply process_room_facts in Hroom as (evs1 & Ht1 & Hs1 & Hd1 & Hr1).
      apply IH in Hrun as (evs2 & Ht2 & Hs2 & Hd2 & Hr2).
      exists (evs1 ++ evs2). split; [rewrite Ht2, Ht1, app_assoc; reflexivity|].
      split; [|split].
      * intros req ok H. apply elem_of_app in H as [H|H].
        -- eapply request_in_scope_mono; [|eapply Hs1; exact H].
           intros x Hx. apply list_elem_of_singleton in Hx. subst x. left.
        -- eapply request_in_scope_mono; [|eapply Hs2; exact H].
           intros x Hx. right. exact Hx.
      * intros Hd. destruct (Hd1 Hd) as [Hw1 Hf1]. destruct (Hd2 Hd) as [Hw2 Hf2].
        split; [congruence|]. rewrite forallb_app, Hf1, Hf2. reflexivity.
      * intros Hsh. rewrite (Hr2 Hsh). apply Hr1. exact Hsh.
    + injection Hrun as <- <-.
      apply process_room_facts in Hroom as (evs1 & Ht1 & Hs1 & Hd1 & Hr1).
      exists evs1. repeat split; try tauto.
      intros req ok H. eapply request_in_scope_mono; [|eapply Hs1; exact H].
      intros x Hx. apply list_elem_of_singleton in Hx. subst x. left.
Qed.

Lemma update_via_facts config (st : State) r st' :
  update_via config st = (r, st') ->
  run_facts config (published_children (world st) (cfg_space_id config)) st st'.
Proof.
  unfold update_via, bind. unfold space_get_hierarchy, bind, emit, ret. simpl.
  unfold published_children.
  destruct (hierarchy (world st) (cfg_space_id config)) as [[|space rest]|err];
    try (intros [= <- <-]; exists [Call (ReqHierarchy (cfg_space_id config)) false];
         repeat split; auto;
         intros req ok H; apply list_elem_of_singleton in H; injection H as -> ->;
         exact eq_refl).
  - intros [= <- <-]. exists [Call (ReqHierarchy (cfg_space_id config)) true].
    repeat split; auto.
    intros req ok H; apply list_elem_of_singleton in H; injection H as -> ->. exact eq_refl.
  - intros Hrun. apply for_each_facts in Hrun as (evs & Ht & Hs & Hd & Hr).
    simpl in *. exists (Call (ReqHierarchy (cfg_space_id config)) true :: evs).
    split; [rewrite Ht, <- app_assoc; reflexivity|]. split; [|split; assumption].
    intros req ok H. apply elem_of_cons in H as [H|H]; [|eauto].
    injection H as -> ->. exact eq_refl.
Qed.

(** X22: Every request of a run stays within the configured space: the
    one hierarchy request, fetches for rooms listed as [m.space.child]
    entries with a non-empty key of the root room, and updates of the
    configured space for such a room. *)
Theorem requests_stay_in_scope config (st : State) r st' :
  update_via config st = (r, st') ->
  exists evs,
    trace st' = trace st ++ evs /\
    forall req ok,
      Call req ok ∈ evs ->
      request_in_scope config (published_children (world st) (cfg_space_id config)) req.
Proof.
  intros H. apply update_via_facts in H as (evs & Ht & Hs & _). eauto.
Qed.

(** X23: A dry run sends no update request and leaves the homeserver as
    it was, however the run ends. *)
Theorem dry_run_never_writes config (st : State) r st' :
  cfg_dry_run config = true ->
  update_via config st = (r, st') ->
  world st' = world st /\
  exists evs, trace st' = trace st ++ evs /\
              forallb (fun e => negb (is_put e)) evs = true.
Proof.
  intros Hd H. apply update_via_facts in H as (evs & Ht & _ & Hdry & _).
  destruct (Hdry Hd). eauto.
Qed.

(** With [shuffle_order] unset a run does not touch the random
    generator. *)
Lemma unshuffled_run_keeps_generator config (st : State) r st' :
  cfg_shuffle_order config = false ->
  update_via config st = (r, st') ->
  random st' = random st.
Proof.
  intros Hsh H. apply update_via_facts in H as (evs & _ & _ & _ & Hr). auto.
Qed.

End MoreRun.

(** ** Start-up: schemes, stored credentials, login *)

(** X24: The homeserver URL handed to the client always starts with
    [https://] or [http://]: a URL that already starts with one of them
    is kept as it is, any other gets [https://] in front, and
    normalising twice changes nothing. *)
Theorem with_scheme_normalises (homeserver : string) :
  (String.prefix "https://" (with_scheme homeserver) = true \/
   String.prefix "http://" (with_scheme homeserver) = true)
  /\ with_scheme (with_scheme homeserver) = with_scheme homeserver
  /\ (String.prefix "https://" homeserver = true \/
      String.prefix "http://" homeserver = true ->
      with_scheme homeserver = homeserver)
  /\ (String.prefix "https://" homeserver = false ->
      String.prefix "http://" homeserver = false ->
      with_scheme homeserver = "https://" +:+ homeserver)
  /\ with_scheme ("https://" +:+ homeserver) = "https://" +:+ homeserver
  /\ with_scheme ("http://" +:+ homeserver) = "http://" +:+ homeserver.
Proof.
  assert (Hs : String.prefix "https://" ("https://" +:+ homeserver) = true).
  { apply String.prefix_correct. simpl. destruct homeserver; reflexivity. }
  assert (Hp : String.prefix "http://" ("http://" +:+ homeserver) = true).
  { apply String.prefix_correct. simpl. destruct homeserver; reflexivity. }
  assert (Hfix : with_scheme ("https://" +:+ homeserver) = "https://" +:+ homeserver).
  { unfold with_scheme. rewrite Hs. reflexivity. }
  assert (Hfix' : with_scheme ("http://" +:+ homeserver) = "http://" +:+ homeserver).
  { unfold with_scheme. rewrite Hp, orb_true_r. reflexivity. }
  destruct (String.prefix "https://" homeserver) eqn:E1.
  - assert (Hw : with_scheme homeserver = homeserver).
    { unfold with_scheme. rewrite E1. reflexivity. }
    rewrite !Hw. repeat split; auto. discriminate.
  - destruct (String.prefix "http://" homeserver) eqn:E2.
    + assert (Hw : with_scheme homeserver = homeserver).
      { unfold with_scheme. rewrite E1, E2. reflexivity. }
      rewrite !Hw. repeat split; auto. discriminate.
    + assert (Hw : with_scheme homeserver = "https://" +:+ homeserver).
      { unfold with_scheme. rewrite E1, E2. reflexivity. }
      rewrite !Hw, Hfix. repeat split; auto. intros [H|H]; discriminate.
Qed.

Lemma existsb_empty_value (credentials : list (string * string)) :
  existsb (fun kv => String.eqb (snd kv) "") credentials = false
  <-> forall k v, (k, v) ∈ credentials -> v <> "".
Proof.
  induction credentials as [|[k v] l IH]; simpl.
  - split; [intros _ k v H; inversion H|reflexivity].
  - rewrite orb_false_iff, IH, String.eqb_neq. split.
    + intros [Hv Hl] k' v' H. apply elem_of_cons in H as [[= -> ->]|H]; eauto.
    + intros H. split; [apply (H k); left|]. intros k' v' Hin. apply (H k'). right. exact Hin.
Qed.

Lemma write_from_start_length data file :
  length (write_from_start data file) = Nat.max (length data) (length file).
Proof. unfold write_from_start. rewrite length_app, length_drop. lia. Qed.

Lemma write_from_start_exact data file :
  write_from_start data file = data <-> (length file <= length data)%nat.
Proof.
  unfold write_from_start. split.
  - intros H. apply (f_equal (@length _)) in H.
    rewrite length_app, length_drop in H. lia.
  - intros H. rewrite drop_ge by exact H. apply app_nil_r.
Qed.

Lemma write_from_start_parts data file :
  take (length data) (write_from_start data file) = data /\
  drop (length data) (write_from_start data file) = drop (length data) file.
Proof.
  unfold write_from_start. split.
  - rewrite take_app_length. reflexivity.
  - rewrite drop_app_length. reflexivity.
Qed.

Lemma file_after_app {T : Toml} evs evs' file :
  file_after (evs ++ evs') file = file_after evs' (file_after evs file).
Proof. unfold file_after. apply fold_left_app. Qed.

Section MainFacts.
Context {R : Runtime} {T : Toml}.

Lemma update_and_close_eq homeserver (p : Process) :
  fst (update_and_close homeserver p) = run_result (fst (run_of homeserver p)) /\
  journal (snd (update_and_close homeserver p))
  = journal p ++ map Run (trace (snd (run_of homeserver p)))
    ++ run_closing (fst (run_of homeserver p)) /\
  stdin (snd (update_and_close homeserver p)) = stdin p /\
  config_toml (snd (update_and_close homeserver p)) = config_toml p.
Proof.
  unfold update_and_close, run_of.
  destruct (update_via _ _) as [[[]|e] st']; simpl; rewrite ?app_nil_r, <- ?app_assoc; auto.
Qed.

Lemma main_stored_path (p : Process) homeserver uid device_id access_token :
  toml_credentials (config_toml p)
  = Some [("homeserver", homeserver); ("user_id", uid);
          ("device_id", device_id); ("access_token", access_token)] ->
  homeserver <> "" -> uid <> "" -> device_id <> "" -> access_token <> "" ->
  fst (main p) = run_result (fst (run_of homeserver p)) /\
  journal (snd (main p))
  = journal p ++ Stdout stored_notice :: map Run (trace (snd (run_of homeserver p)))
    ++ run_closing (fst (run_of homeserver p)).
Proof.
  intros Hc H1 H2 H3 H4. unfold main, first_time_use. rewrite Hc.
  apply String.eqb_neq in H1, H2, H3, H4.
  cbn [existsb snd]. rewrite H1, H2, H3, H4. cbn.
  destruct (update_and_close_eq homeserver (record [Stdout stored_notice] p))
    as (E1 & E2 & _).
  rewrite E1, E2. simpl. rewrite <- app_assoc. auto.
Qed.

(** X25: [write_details_to_disk] writes the dump of [config_toml] over
    the start of the configuration file and does not truncate it: the
    file is the dump followed by what the old file held beyond the
    length of the dump, so it is the dump exactly when the old file was
    no longer.  In that case, and when the reader gives back the
    dictionary that was dumped, the next start has the [main] table as
    before, takes the stored-credentials path exactly when none of the
    four values is empty, and then runs [update_via] against the stored
    homeserver without prompt or login. *)
Theorem stored_credentials_round_trip (uid device_id access_token homeserver : string)
    (p : Process) (file : list Byte.byte) :
  let p' := write_details_to_disk uid device_id access_token homeserver p in
  let data := dumps (config_toml p') in
  let old := file_after (journal p) file in
  let new := file_after (journal p') file in
  new = data ++ drop (length data) old /\
  length new = Nat.max (length data) (length old) /\
  (new = data <-> (length old <= length data)%nat) /\
  ((length old <= length data)%nat ->
   loads data = Some (config_toml p') ->
   forall q : Process,
     let q' := loaded (config_toml p') q in
     start new q = Some (main q') /\
     toml_main (config_toml q') = toml_main (config_toml p) /\
     (first_time_use (config_toml q') = false
      <-> homeserver <> "" /\ uid <> "" /\ device_id <> "" /\ access_token <> "") /\
     (first_time_use (config_toml q') = false ->
      fst (main q') = run_result (fst (run_of homeserver q')) /\
      journal (snd (main q'))
      = journal q ++ Stdout stored_notice
          :: map Run (trace (snd (run_of homeserver q')))
          ++ run_closing (fst (run_of homeserver q')))).
Proof.
  intros p' data old new.
  assert (Hnew : new = write_from_start data old).
  { unfold new, old, p', data, write_details_to_disk. cbn [journal config_toml].
    rewrite file_after_app. reflexivity. }
  split; [exact Hnew|]. rewrite Hnew.
  split; [apply write_from_start_length|].
  split; [apply write_from_start_exact|].
  intros Hlen Hc q q'. apply write_from_start_exact in Hlen. rewrite Hlen.
  assert (Hft : first_time_use (config_toml q') = false
                <-> homeserver <> "" /\ uid <> "" /\ device_id <> "" /\ access_token <> "").
  { unfold first_time_use, q', loaded, p', write_details_to_disk.
    cbn [config_toml toml_credentials existsb snd].
    rewrite !orb_false_iff, !String.eqb_neq. tauto. }
  split; [unfold start; rewrite Hc; reflexivity|].
  split; [reflexivity|]. split; [exact Hft|].
  intros H. apply Hft in H as (H1 & H2 & H3 & H4).
  apply (main_stored_path q' homeserver uid device_id access_token); auto.
Qed.

(** X26: With a complete credentials table the start-up asks nothing,
    sends no login request and does not rewrite the configuration; it
    prints one line and runs [update_via] against the stored homeserver;
    the client is closed only when that run returns. *)
Theorem stored_credentials_start (p : Process) credentials homeserver :
  toml_credentials (config_toml p) = Some credentials ->
  (forall k v, (k, v) ∈ credentials -> v <> "") ->
  dict_get "homeserver" credentials = Some homeserver ->
  is_Some (dict_get "access_token" credentials) ->
  is_Some (dict_get "user_id" credentials) ->
  is_Some (dict_get "device_id" credentials) ->
  fst (main p) = run_result (fst (run_of homeserver p)) /\
  journal (snd (main p))
  = journal p ++ Stdout stored_notice :: map Run (trace (snd (run_of homeserver p)))
    ++ run_closing (fst (run_of homeserver p)) /\
  stdin (snd (main p)) = stdin p /\
  config_toml (snd (main p)) = config_toml p.
Proof.
  intros Hc Hall Hh [t Ht] [u Hu] [d Hd]. unfold main.
  assert (Hft : first_time_use (config_toml p) = false).
  { unfold first_time_use. rewrite Hc. apply existsb_empty_value. exact Hall. }
  rewrite Hft, Hc. simpl. unfold credential. rewrite Hh, Ht, Hu, Hd.
  destruct (update_and_close_eq homeserver (record [Stdout stored_notice] p))
    as (H1 & H2 & H3 & H4).
  rewrite H1, H2, H3, H4. simpl. rewrite <- app_assoc. auto.
Qed.

(** X27: A credentials table without empty value but with one of the four
    keys missing ends the start-up with [KeyError] for the first missing
    key, in the order homeserver, access_token, user_id, device_id;
    nothing is printed and nothing is requested. *)
Theorem incomplete_credentials_table (p : Process) credentials key :
  toml_credentials (config_toml p) = Some credentials ->
  (forall k v, (k, v) ∈ credentials -> v <> "") ->
  List.find (fun k => bool_decide (dict_get k credentials = None))
            ["homeserver"; "access_token"; "user_id"; "device_id"] = Some key ->
  main p = (Uncaught (KeyError key), p).
Proof.
  intros Hc Hall Hfind. unfold main.
  assert (Hft : first_time_use (config_toml p) = false).
  { unfold first_time_use. rewrite Hc. apply existsb_empty_value. exact Hall. }
  rewrite Hft, Hc. simpl in *. unfold credential.
  repeat match type of Hfind with
         | context [bool_decide (dict_get ?k credentials = None)] =>
             let E := fresh "E" in
             destruct (dict_get k credentials) eqn:E; simpl in Hfind
         end; try discriminate; injection Hfind as <-; reflexivity.
Qed.

(** X28: A failed login ends the start-up with exit status 1 after the
    three prompts, the password prompt and the two report lines; the
    credentials are not stored, and the space is never contacted. *)
Theorem failed_login_exits (p : Process) a1 a2 a3 rest e :
  first_time_use (config_toml p) = true ->
  stdin p = a1 :: a2 :: a3 :: rest ->
  let homeserver := with_scheme (or_default a1 "https://matrix.example.org") in
  let uid := or_default a2 "@user:example.org" in
  let device_name := or_default a3 "matrix-nio" in
  login_answer p homeserver uid (password p) device_name = LoginError e ->
  fst (main p) = SystemExit 1 /\
  config_toml (snd (main p)) = config_toml p /\
  network (snd (main p)) = network p /\
  journal (snd (main p))
  = journal p
    ++ [Stdout first_time_notice; Prompt homeserver_prompt; Prompt user_prompt;
        Prompt device_prompt; Getpass;
        Login homeserver uid (password p) device_name false;
        Stdout ("homeserver = " +:+ dquote +:+ homeserver +:+ dquote
                +:+ "; user = " +:+ dquote +:+ uid +:+ dquote);
        Stdout ("Failed to log in: " +:+ err_str e)].
Proof.
  intros Hft Hin homeserver uid device_name Hlogin.
  unfold main. rewrite Hft. unfold input, record. simpl. rewrite Hin. simpl.
  fold homeserver uid device_name. rewrite Hlogin. simpl.
  rewrite <- !app_assoc. auto.
Qed.

(** X29: A successful login stores the normalised homeserver together
    with the user id, device id and token of the response (not the user
    id that was typed), dumps the configuration once, and then runs
    [update_via] against that homeserver in the same process. *)
Theorem successful_login_stores_and_runs (p : Process) a1 a2 a3 rest
    uid' device_id access_token :
  first_time_use (config_toml p) = true ->
  stdin p = a1 :: a2 :: a3 :: rest ->
  let homeserver := with_scheme (or_default a1 "https://matrix.example.org") in
  let uid := or_default a2 "@user:example.org" in
  let device_name := or_default a3 "matrix-nio" in
  login_answer p homeserver uid (password p) device_name
  = LoginResponse uid' device_id access_token ->
  let stored :=
    {| toml_main := toml_main (config_toml p);
       toml_credentials :=
         Some [("homeserver", homeserver); ("user_id", uid');
               ("device_id", device_id); ("access_token", access_token)] |} in
  config_toml (snd (main p)) = stored /\
  stdin (snd (main p)) = rest /\
  fst (main p) = run_result (fst (run_of homeserver p)) /\
  journal (snd (main p))
  = journal p
    ++ [Stdout first_time_notice; Prompt homeserver_prompt; Prompt user_prompt;
        Prompt device_prompt; Getpass;
        Login homeserver uid (password p) device_name true;
        Dump stored; Stdout password_notice]
    ++ map Run (trace (snd (run_of homeserver p)))
    ++ run_closing (fst (run_of homeserver p)).
Proof.
  intros Hft Hin homeserver uid device_name Hlogin stored.
  unfold main. rewrite Hft. unfold input, record. simpl. rewrite Hin. simpl.
  fold homeserver uid device_name. rewrite Hlogin.
  match goal with
  | |- context [update_and_close homeserver ?q] =>
      destruct (update_and_close_eq homeserver q) as (H1 & H2 & H3 & H4);
      rewrite H1, H2, H3, H4
  end.
  unfold write_details_to_disk, run_of. simpl. rewrite <- !app_assoc. auto.
Qed.

(** X30: When the input ends before the three answers are given, the
    start-up stops with [EOFError] at the first prompt left without
    answer: no login request is sent and nothing is stored. *)
Theorem short_input_stops (p : Process) :
  first_time_use (config_toml p) = true ->
  (length (stdin p) < 3)%nat ->
  fst (main p) = EOFError /\
  config_toml (snd (main p)) = config_toml p /\
  journal (snd (main p))
  = journal p
    ++ Stdout first_time_notice
       :: map Prompt (take (S (length (stdin p)))
                           [homeserver_prompt; user_prompt; device_prompt]).
Proof.
  intros Hft Hlen. unfold main. rewrite Hft. unfold input, record. simpl.
  destruct (stdin p) as [|a1 [|a2 [|a3 rest]]]; simpl in *; try lia;
    rewrite <- ?app_assoc; auto.
Qed.

End MainFacts.

(** ** The statements at work on the example space *)

#[local] Existing Instance simple_runtime.

(** C2: with [ignore_errors] set, a failed power-level fetch for the
    first of two rooms ends the run with [AttributeError] (the error
    response has no [content]); the room is not reported as skipped and
    no request is sent for the second room. *)
Theorem power_levels_failure_aborts :
  let config := example_config true false in
  let st := example_state
              (example_world example_two_rooms
                 (JoinedMembersResponse example_members)
                 (RoomGetStateEventError example_error) None) in
  cfg_ignore_errors config = true /\
  fst (update_via config st) = Raise (AttributeError "content") /\
  trace (snd (update_via config st))
  = [Call (ReqHierarchy "!space:a.org") true;
     Call (ReqJoinedMembers "!room:a.org") true;
     Call (ReqGetStateEvent "!room:a.org" "m.room.power_levels" "") false].
Proof. repeat split. Qed.

Lemma skipped_entry_costs_nothing_witness :
  let config := example_config false false in
  let st := example_state
              (example_world example_hierarchy (JoinedMembersResponse example_members)
                 (RoomGetStateEventResponse example_levels) None) in
  process_room config example_empty_key st = (Ok tt, st) /\
  for_each (process_room config) [example_empty_key; example_room ["a.org"]] st
  = for_each (process_room config) [example_room ["a.org"]] st.
Proof.
  apply (@skipped_entry_costs_nothing simple_runtime).
  right. right. reflexivity.
Defined.

Lemma error_handling_witness :
  let room := example_room ["a.org"] in
  let members := JoinedMembersResponse example_members in
  let levels := RoomGetStateEventResponse example_levels in
  let st_a := example_state
                (example_world (SpaceGetHierarchyError example_error) members levels None) in
  let st_b := example_state
                (example_world example_hierarchy (JoinedMembersError example_error)
                   levels None) in
  let st_c := example_state
                (example_world example_hierarchy members levels (Some example_error)) in
  fst (update_via (example_config true false) st_a)
  = Raise (ErrorGettingSpace example_error)
  /\ fst (for_each (process_room (example_config true false)) [room] st_b) = Ok tt
  /\ fst (for_each (process_room (example_config false false)) [room] st_b)
     = Raise (RaisedResponse example_error)
  /\ fst (for_each (process_room (example_config true false)) [room] st_c) = Ok tt
  /\ fst (for_each (process_room (example_config false false)) [room] st_c)
     = Raise (ErrorUpdatingState example_error).
Proof.
  intros room members levels st_a st_b st_c.
  split; [|split; [|split; [|split]]].
  - rewrite (proj1 (@error_handling simple_runtime (example_config true false)
                      room "!room:a.org" [] st_a) example_error eq_refl).
    reflexivity.
  - rewrite (proj1 (proj2 (@error_handling simple_runtime (example_config true false)
                             room "!room:a.org" [] st_b)) example_error eq_refl eq_refl).
    reflexivity.
  - rewrite (proj1 (proj2 (@error_handling simple_runtime (example_config false false)
                             room "!room:a.org" [] st_b)) example_error eq_refl eq_refl).
    reflexivity.
  - rewrite (proj2 (proj2 (@error_handling simple_runtime (example_config true false)
                             room "!room:a.org" [] st_c))
               example_error example_members example_levels ["c.org"; "b.org"; "a.org"]
               false eq_refl eq_refl eq_refl eq_refl eq_refl eq_refl eq_refl eq_refl).
    reflexivity.
  - rewrite (proj2 (proj2 (@error_handling simple_runtime (example_config false false)
                             room "!room:a.org" [] st_c))
               example_error example_members example_levels ["c.org"; "b.org"; "a.org"]
               false eq_refl eq_refl eq_refl eq_refl eq_refl eq_refl eq_refl eq_refl).
    reflexivity.
Defined.

Lemma via_written_only_on_change_witness :
  let config := example_config false false in
  let st := example_state
              (example_world example_hierarchy (JoinedMembersResponse example_members)
                 (RoomGetStateEventResponse example_levels) None) in
  let matching := example_room ["b.org"; "c.org"; "a.org"] in
  let stale := example_room ["a.org"] in
  (process_room config matching st = (Ok tt, log (already_matching matching) st) /\
   forallb (fun e => negb (is_put e)) (already_matching matching) = true)
  /\ exists members power_levels servers,
       room_key stale = Some "!room:a.org" /\
       joined (world st) "!room:a.org" = JoinedMembersResponse members /\
       room_state (world st) "!room:a.org" "m.room.power_levels" ""
       = RoomGetStateEventResponse power_levels /\
       room_servers config members power_levels = Ok servers /\
       ["a.org"; "b.org"; "c.org"] ≡ₚ servers /\
       list_to_set (via (content stale)) <> (list_to_set servers : gset string).
Proof.
  intros config st matching stale. split.
  - apply (proj1 (@via_written_only_on_change simple_runtime config matching st)
             "!room:a.org" example_members example_levels ["c.org"; "b.org"; "a.org"]);
      reflexivity.
  - apply (proj2 (@via_written_only_on_change simple_runtime config stale st)
             (Ok tt) (snd (process_room config stale st))
             (trace (snd (process_room config stale st)))
             "!space:a.org" "m.space.child"
             {| suggested := Some false; via := ["a.org"; "b.org"; "c.org"] |}
             "!room:a.org" true).
    + reflexivity.
    + reflexivity.
    + vm_compute. do 2 apply list_elem_of_further. apply list_elem_of_here.
Defined.

Lemma absent_allow_list_server_excluded_witness :
  "extra.org" ∉ ["c.org"; "b.org"; "a.org"].
Proof.
  apply (proj1 (@absent_allow_list_server_excluded simple_runtime
                  (example_config false false) "extra.org" (list_elem_of_here _ _))
           example_members example_levels).
  - reflexivity.
  - intros member Hm.
    repeat (apply elem_of_cons in Hm as [->|Hm]; [discriminate|]). inversion Hm.
Defined.

Lemma relaxed_rerun_tops_up_witness :
  let config := example_config false false in
  let all_servers := ["a.org"; "a.org"; "b.org"; "c.org"] in
  @merge_servers simple_runtime config all_servers ["a.org"] ["a.org"]
  = ["c.org"; "b.org"; "a.org"]
  /\ ["b.org"; "a.org"] ⊆ @merge_servers simple_runtime config all_servers ["a.org"] ["a.org"].
Proof.
  intros config all_servers.
  destruct (proj1 (@relaxed_rerun_tops_up simple_runtime config all_servers
                     ["a.org"] ["a.org"]))
    as (Heq & _ & Hsub); [reflexivity|reflexivity|].
  split; [rewrite Heq; reflexivity|exact Hsub].
Defined.

Lemma update_via_idempotent_witness :
  let config := example_config false false in
  let st := example_state
              (example_world example_hierarchy (JoinedMembersResponse example_members)
                 (RoomGetStateEventResponse example_levels) None) in
  let st1 := snd (update_via config st) in
  let st2 := example_state (world st1) in
  update_via config st2
  = (Ok tt,
     log [Call (ReqHierarchy "!space:a.org") true;
          Call (ReqJoinedMembers "!room:a.org") true;
          Call (ReqGetStateEvent "!room:a.org" "m.room.power_levels" "") true;
          Print "Skipping room !room:a.org, 'via' servers already match."] st2).
Proof.
  intros config st st1 st2.
  apply (proj1 (update_via_idempotent simple_runtime simple_runtime config st st1 st2
                  eq_refl eq_refl eq_refl eq_refl)).
Defined.

(** ** Further statements at work on the example *)

(** A decidable closed proposition holds when its decision computes to
    true. *)
Ltac by_decision := apply (bool_decide_unpack _); vm_compute; exact I.

Lemma get_user_homeserver_well_formed_witness :
  get_user_homeserver ("@alice" +:+ ":" +:+ "a.org") = Ok "a.org".
Proof. apply (get_user_homeserver_well_formed "@alice" "a.org"); reflexivity. Defined.

Lemma get_user_homeserver_no_delimiter_witness :
  count_char ":" "example.org" = 0%nat /\
  (1 <= count_char ":" "@user:example.org:8448")%nat.
Proof.
  apply (get_user_homeserver_no_delimiter "@user:example.org:8448" "example.org").
  reflexivity.
Defined.

Lemma most_common_servers_distinct_witness : "X" ∈ ["X"; "X"; "Y"].
Proof.
  apply (proj2 (most_common_servers_distinct ["X"; "X"; "Y"] 5 2) "X"). by_decision.
Defined.

Lemma most_common_servers_top_witness :
  (count_occ string_dec ["a"; "b"; "b"; "c"] "a"
   <= count_occ string_dec ["a"; "b"; "b"; "c"] "b")%nat.
Proof.
  apply (most_common_servers_top ["a"; "b"; "b"; "c"] 1 1 "b" "a"); by_decision.
Defined.

Lemma most_common_servers_complete_witness :
  "X" ∈ most_common_servers ["X"; "X"; "Y"] 5 2
  <-> "X" ∈ ["X"; "X"; "Y"] /\ 2 <= Z.of_nat (count_occ string_dec ["X"; "X"; "Y"] "X").
Proof. apply (most_common_servers_complete ["X"; "X"; "Y"] 5 2 "X"). by_decision. Defined.

Lemma most_common_servers_tie_break_witness :
  exists l1 l2, ["b"; "a"; "b"; "a"] = l1 ++ "b" :: l2 /\ ("b" ∉ l1) /\ ("a" ∉ l1).
Proof.
  apply (most_common_servers_tie_break ["b"; "a"; "b"; "a"] 2 1 [] [] [] "b" "a");
    reflexivity.
Defined.

Lemma get_highest_level_members_failure_witness :
  get_highest_level_members [] 50 = Raise ValueError.
Proof.
  apply (proj2 (get_highest_level_members_failure [] 50 ValueError)).
  split; reflexivity.
Defined.

Lemma get_highest_level_members_unique_witness :
  get_highest_level_members [("@a:X", 100); ("@c:Z", 0)] 50 = Ok ["@a:X"].
Proof.
  apply (get_highest_level_members_unique [("@a:X", 100); ("@c:Z", 0)] 50 "@a:X" 100).
  - by_decision.
  - by_decision.
  - lia.
  - intros uid' v' H Hne.
    apply elem_of_cons in H as [[= -> ->]|H]; [congruence|].
    apply elem_of_cons in H as [[= -> ->]|H]; [lia|inversion H].
Defined.

Lemma member_levels_effective_witness :
  ("@carol:b.org", 0) ∈ member_levels_of example_members example_levels.
Proof.
  apply (proj2 (member_levels_effective example_members example_levels)
           "@carol:b.org" 0).
  split; [by_decision|reflexivity].
Defined.

Lemma room_servers_failure_witness :
  room_servers (example_config false false) [] example_levels = Raise ValueError.
Proof.
  apply (proj2 (room_servers_failure (example_config false false) [] example_levels
                  ValueError)).
  right. split; reflexivity.
Defined.

Lemma via_list_has_no_duplicates_witness : NoDup ["c.org"; "b.org"; "a.org"].
Proof.
  apply (proj1 (via_list_has_no_duplicates (example_config false false))
           example_members example_levels).
  reflexivity.
Defined.

Lemma selected_servers_are_kept_witness : "b.org" ∈ ["c.org"; "b.org"; "a.org"].
Proof.
  destruct (selected_servers_are_kept (example_config false false) example_members
              example_levels ["c.org"; "b.org"; "a.org"]
              ["a.org"; "a.org"; "b.org"; "c.org"]) as [Hallow _];
    [reflexivity|reflexivity|].
  apply (Hallow "b.org"); by_decision.
Defined.

Lemma authority_servers_are_kept_witness :
  exists s, get_user_homeserver "@alice:a.org" = Ok s /\ s ∈ ["c.org"; "b.org"; "a.org"].
Proof.
  apply (authority_servers_are_kept (example_config false false) example_members
           example_levels ["c.org"; "b.org"; "a.org"] {| user_id := "@alice:a.org" |}).
  - reflexivity.
  - apply list_elem_of_here.
  - reflexivity.
  - intros other H.
    repeat (apply elem_of_cons in H as [->|H]; [apply Z.leb_le; reflexivity|]).
    inversion H.
Defined.

Lemma relaxed_rerun_reaches_optimum_witness :
  Z.min 3 (Z.of_nat (length (remove_dups ["a.org"; "a.org"; "b.org"; "c.org"])))
  <= Z.of_nat (length ["c.org"; "b.org"; "a.org"]).
Proof.
  apply (relaxed_rerun_reaches_optimum (example_config false false) example_members
           example_levels ["c.org"; "b.org"; "a.org"]
           ["a.org"; "a.org"; "b.org"; "c.org"]); reflexivity.
Defined.

Lemma merge_servers_provenance_witness :
  "b.org" ∈ merge_servers (example_config false false)
              ["a.org"; "a.org"; "b.org"; "c.org"] ["a.org"] ["a.org"].
Proof.
  apply (proj2 (merge_servers_provenance (example_config false false)
                  ["a.org"; "a.org"; "b.org"; "c.org"] ["a.org"] ["a.org"] "b.org")).
  left. split; by_decision.
Defined.

Lemma update_request_shape_witness :
  let config := example_config false false in
  let st := example_state example_live_world in
  let evs := trace (snd (process_room config (example_room ["a.org"]) st)) in
  List.filter is_put evs = [] \/
  exists k b servers ok,
    room_key (example_room ["a.org"]) = Some k /\
    suggested (content (example_room ["a.org"])) = Some b /\
    cfg_dry_run config = false /\
    List.filter is_put evs
    = [Call (ReqPutState (cfg_space_id config) "m.space.child"
               {| suggested := Some b; via := servers |} k) ok].
Proof.
  intros config st evs.
  apply (update_request_shape config (example_room ["a.org"]) st (Ok tt)
           (snd (process_room config (example_room ["a.org"]) st)) evs);
    reflexivity.
Defined.

Lemma unshuffled_list_is_written_witness :
  let st := example_state example_live_world in
  exists members power_levels,
    joined (world st) "!room:a.org" = JoinedMembersResponse members /\
    room_state (world st) "!room:a.org" "m.room.power_levels" ""
    = RoomGetStateEventResponse power_levels /\
    room_servers example_plain_config members power_levels
    = Ok ["c.org"; "b.org"; "a.org"].
Proof.
  intros st.
  apply (unshuffled_list_is_written example_plain_config (example_room ["a.org"]) st
           (Ok tt) (snd (process_room example_plain_config (example_room ["a.org"]) st))
           (trace (snd (process_room example_plain_config (example_room ["a.org"]) st)))
           "!space:a.org" "m.space.child"
           {| suggested := Some false; via := ["c.org"; "b.org"; "a.org"] |}
           "!room:a.org" true).
  - reflexivity.
  - reflexivity.
  - reflexivity.
  - vm_compute. do 2 apply list_elem_of_further. apply list_elem_of_here.
Defined.

Lemma missing_suggested_aborts_witness :
  fst (process_room (example_config true true) example_unflagged_room
         (example_state example_live_world))
  = Raise (KeyError "suggested").
Proof.
  rewrite (missing_suggested_aborts (example_config true true) example_unflagged_room
             "!room:a.org" example_members example_levels ["c.org"; "b.org"; "a.org"]
             (example_state example_live_world));
    reflexivity.
Defined.

Lemma malformed_membership_aborts_witness :
  let bad := JoinedMembersResponse [ {| user_id := "@alice:a.org" |};
                                     {| user_id := "mallory" |} ] in
  let st := example_state
              (example_world example_hierarchy bad
                 (RoomGetStateEventResponse example_levels) None) in
  let empty := example_state
                 (example_world example_hierarchy (JoinedMembersResponse [])
                    (RoomGetStateEventResponse example_levels) None) in
  fst (process_room (example_config true false) (example_room ["a.org"]) st)
  = Raise IndexError
  /\ fst (process_room (example_config true false) (example_room ["a.org"]) empty)
     = Raise ValueError.
Proof.
  intros bad st empty. split.
  - rewrite (proj1 (malformed_membership_aborts (example_config true false)
                      (example_room ["a.org"]) "!room:a.org"
                      [ {| user_id := "@alice:a.org" |}; {| user_id := "mallory" |} ]
                      st eq_refl eq_refl)); [reflexivity|].
    exists {| user_id := "mallory" |}. split; [|reflexivity].
    apply list_elem_of_further, list_elem_of_here.
  - rewrite (proj2 (malformed_membership_aborts (example_config true false)
                      (example_room ["a.org"]) "!room:a.org" [] empty eq_refl eq_refl)
               eq_refl example_levels eq_refl).
    reflexivity.
Defined.

Lemma requests_stay_in_scope_witness :
  let config := example_config false false in
  let st := example_state example_live_world in
  exists evs,
    trace (snd (update_via config st)) = trace st ++ evs /\
    forall req ok,
      Call req ok ∈ evs ->
      request_in_scope config (published_children (world st) (cfg_space_id config)) req.
Proof.
  intros config st.
  apply (requests_stay_in_scope config st (Ok tt) (snd (update_via config st))).
  reflexivity.
Defined.

Lemma dry_run_never_writes_witness :
  let config := example_config false true in
  let st := example_state example_live_world in
  world (snd (update_via config st)) = world st /\
  exists evs, trace (snd (update_via config st)) = trace st ++ evs /\
              forallb (fun e => negb (is_put e)) evs = true.
Proof.
  intros config st.
  apply (dry_run_never_writes config st (Ok tt) (snd (update_via config st)));
    reflexivity.
Defined.

Lemma with_scheme_normalises_witness :
  with_scheme "http://matrix.a.org" = "http://matrix.a.org" /\
  with_scheme "matrix.org" = "https://matrix.org".
Proof.
  destruct (with_scheme_normalises "http://matrix.a.org") as (_ & _ & Hkept & _).
  destruct (with_scheme_normalises "matrix.org") as (_ & _ & _ & Hnew & _).
  split; [apply Hkept; right; reflexivity|apply Hnew; reflexivity].
Defined.

#[local] Existing Instance example_toml.

Lemma stored_credentials_round_trip_witness :
  let p := example_process None [] (LoginError example_error) in
  let p' := write_details_to_disk "@bot:a.org" "DEVICE" "token" "https://matrix.a.org" p in
  file_after (journal p') example_short_file = dumps (config_toml p') /\
  (exists q', start (file_after (journal p') example_short_file) p = Some (main q') /\
              fst (main q') = Returned) /\
  file_after (journal p') example_long_file <> dumps (config_toml p').
Proof.
  intros p p'.
  destruct (stored_credentials_round_trip "@bot:a.org" "DEVICE" "token"
              "https://matrix.a.org" p example_short_file)
    as (_ & _ & Hexact & Hnext).
  destruct (stored_credentials_round_trip "@bot:a.org" "DEVICE" "token"
              "https://matrix.a.org" p example_long_file)
    as (_ & _ & Hlong & _).
  assert (Hlen : (length (file_after (journal p) example_short_file)
                  <= length (dumps (config_toml p')))%nat) by (vm_compute; lia).
  split; [apply Hexact; exact Hlen|]. split.
  - destruct (Hnext Hlen eq_refl p) as (Hs & _ & Hft & Hrun).
    eexists. split; [exact Hs|].
    destruct Hrun as [Hr _].
    + apply Hft. repeat split; discriminate.
    + rewrite Hr. reflexivity.
  - intros H. apply Hlong in H. vm_compute in H. lia.
Defined.

Lemma stored_credentials_start_witness :
  let p := example_process (Some example_credentials) ["ignored"]
             (LoginError example_error) in
  fst (main p) = Returned /\ stdin (snd (main p)) = ["ignored"] /\
  config_toml (snd (main p)) = config_toml p.
Proof.
  intros p.
  destruct (stored_credentials_start p example_credentials "https://matrix.a.org")
    as (Hres & _ & Hin & Hcfg); try reflexivity.
  - intros k v H.
    repeat (apply elem_of_cons in H as [[= -> ->]|H]; [discriminate|]). inversion H.
  - eexists; reflexivity.
  - eexists; reflexivity.
  - eexists; reflexivity.
  - rewrite Hres, Hin, Hcfg. repeat split.
Defined.

Lemma incomplete_credentials_table_witness :
  let p := example_process (Some [("homeserver", "https://matrix.a.org");
                                  ("user_id", "@bot:a.org")])
             [] (LoginError example_error) in
  main p = (Uncaught (KeyError "access_token"), p).
Proof.
  intros p.
  apply (incomplete_credentials_table p
           [("homeserver", "https://matrix.a.org"); ("user_id", "@bot:a.org")]
           "access_token"); try reflexivity.
  intros k v H.
  repeat (apply elem_of_cons in H as [[= -> ->]|H]; [discriminate|]). inversion H.
Defined.

Lemma failed_login_exits_witness :
  let p := example_process None ["matrix.a.org"; ""; ""] (LoginError example_error) in
  fst (main p) = SystemExit 1 /\ config_toml (snd (main p)) = config_toml p.
Proof.
  intros p.
  destruct (failed_login_exits p "matrix.a.org" "" "" [] example_error)
    as (Hres & Hcfg & _); try reflexivity.
  rewrite Hres, Hcfg. split; reflexivity.
Defined.

Lemma successful_login_stores_and_runs_witness :
  let p := example_process None ["matrix.a.org"; ""; ""]
             (LoginResponse "@bot:a.org" "DEVICE" "token") in
  toml_credentials (config_toml (snd (main p))) = Some example_credentials /\
  fst (main p) = Returned.
Proof.
  intros p.
  destruct (successful_login_stores_and_runs p "matrix.a.org" "" "" []
              "@bot:a.org" "DEVICE" "token")
    as (Hcfg & _ & Hres & _); try reflexivity.
  rewrite Hcfg, Hres. split; reflexivity.
Defined.

Lemma short_input_stops_witness :
  let p := example_process None ["matrix.a.org"]
             (LoginResponse "@bot:a.org" "DEVICE" "token") in
  fst (main p) = EOFError /\
  journal (snd (main p))
  = [Stdout first_time_notice; Prompt homeserver_prompt; Prompt user_prompt].
Proof.
  intros p.
  destruct (short_input_stops p) as (Hres & _ & Hj); [reflexivity|simpl; lia|].
  rewrite Hres, Hj. split; reflexivity.
Defined.
